(** * MIR Assignment 1: tone synthesis and spectrogram analysis

    A shallow embedding of [MIR_Assignment_1_20191048.py].

    Conventions.
    - Tensor elements and Python floats are read as real numbers and the
      arithmetic on sample values is the exact one. The products of floats
      that decide how many samples a waveform has are computed as the machine
      computes them ([py_mul]): each factor is the double nearest to the
      number given (the number itself when it is a double, so the decimal
      [0.07] stands for the double Python reads from [0.07]), and the product
      of the two doubles is rounded to the nearest double.
    - A 1-D tensor is a [list R]; a 2-D tensor is the list of its rows.
    - Python integers are [Z]; container lengths are [nat].
    - An exception is an [Err] result; the library calls that can raise
      ([torch.arange], [torch.zeros], the in-place [+=], [torch.stack],
      [torch.fft.fft], [range]) raise here on the same inputs. *)

From Stdlib Require Import Reals ZArith List Lia Lra Bool.
Import ListNotations.

Open Scope R_scope.

(** ** Exceptions *)

Inductive runtime_error : Type :=
| SizeMismatch        (* operand shapes cannot be combined *)
| NegativeDimension   (* a tensor of negative size was requested *)
| ArangeBounds        (* torch.arange with end < start and step > 0 *)
| EmptyStack          (* torch.stack of an empty list *)
| EmptyFFT.           (* torch.fft.fft of zero points *)

Inductive exn : Type :=
| AssertionError
| ValueError
| RuntimeError (e : runtime_error).

Inductive result (A : Type) : Type :=
| Ok (a : A)
| Err (e : exn).

Arguments Ok {A} a.
Arguments Err {A} e.

Definition bind {A B : Type} (m : result A) (k : A -> result B) : result B :=
  match m with
  | Ok a => k a
  | Err e => Err e
  end.

Notation "x <- m ;; k" := (bind m (fun x => k))
  (at level 61, m at next level, right associativity).

Definition is_ok {A : Type} (m : result A) : bool :=
  match m with Ok _ => true | Err _ => false end.

(** [for x in xs: acc = body acc x], stopping at the first exception. *)
Fixpoint for_each {A S : Type} (body : S -> A -> result S) (xs : list A) (acc : S)
  : result S :=
  match xs with
  | [] => Ok acc
  | x :: xs' => acc' <- body acc x ;; for_each body xs' acc'
  end.

(** [[f x for x in xs]] built by [append], stopping at the first exception. *)
Fixpoint map_result {A B : Type} (f : A -> result B) (xs : list A) : result (list B) :=
  match xs with
  | [] => Ok []
  | x :: xs' => y <- f x ;; ys <- map_result f xs' ;; Ok (y :: ys)
  end.

(** ** Python floats

    A Python float is a double. Its value is read as a real number; the one
    place where the code's outcome depends on the rounding of an operation is
    the product [dur * sr] that sizes a waveform, so that product is computed
    here as the machine computes it. *)

(** Round to the nearest integer, ties to even. *)
Definition round_half_even (y : R) : Z :=
  let f := Zfloor y in
  if Rlt_dec (y - IZR f) (1 / 2) then f
  else if Rlt_dec (1 / 2) (y - IZR f) then (f + 1)%Z
  else if Z.even f then f else (f + 1)%Z.

(** The binary exponent [e] of a non-zero real: [2^e <= |x| < 2^(e+1)]. *)
Definition exponent (x : R) : Z := Zfloor (ln (Rabs x) / ln 2).

(** The double nearest to [x]: 53 significant bits, ties to even. The
    exponent range is not bounded: overflow and underflow are not modelled. *)
Definition fl64 (x : R) : R :=
  if Req_dec_T x 0 then 0
  else
    let e := exponent x in
    IZR (round_half_even (x * powerRZ 2 (52 - e))) * powerRZ 2 (e - 52).

(** The product [x * y] of two Python floats: each factor is the double
    nearest to the number given (the number itself when it is a double), and
    the product of the two doubles is rounded. *)
Definition py_mul (x y : R) : R := fl64 (fl64 x * fl64 y).

(** The relative error of one rounding, [2^-53]. *)
Definition eps64 : R := powerRZ 2 (-53).

(** A double given by its integer significand and binary exponent. *)
Definition double (m e : Z) : R := IZR m * powerRZ 2 e.

(** The doubles written [0.3], [0.7], [0.07] and [0.1]. *)
Definition double_0_3 : R := double 5404319552844595 (-54).
Definition double_0_7 : R := double 6305039478318694 (-53).
Definition double_0_07 : R := double 5044031582654956 (-56).
Definition double_0_1 : R := double 7205759403792794 (-56).

(** ** Integer parts of a real *)

(** Python's [int(x)] on a float: truncation toward zero. *)
Definition py_int (x : R) : Z :=
  if Rle_dec 0 x then Zfloor x else Zceil x.

(** ** Library calls used by the synthesis code *)

(** [torch.zeros(n)]. *)
Definition torch_zeros (n : Z) : result (list R) :=
  if (n <? 0)%Z then Err (RuntimeError NegativeDimension)
  else Ok (repeat 0 (Z.to_nat n)).

(** [torch.arange(x)]: the values [0, 1, ..., ceil(x) - 1]. *)
Definition torch_arange (x : R) : result (list R) :=
  if Rlt_dec x 0 then Err (RuntimeError ArangeBounds)
  else Ok (map INR (seq 0 (Z.to_nat (Zceil x)))).

(** Shape of the broadcast of two 1-D shapes, when there is one. *)
Definition broadcast_shape (n m : nat) : option nat :=
  if Nat.eqb n m then Some n
  else if Nat.eqb n 1 then Some m
  else if Nat.eqb m 1 then Some n
  else None.

(** A 1-D tensor expanded to length [n] (its own length, or from length 1). *)
Definition expand (n : nat) (a : list R) : list R :=
  if Nat.eqb (length a) n then a else repeat (hd 0 a) n.

Fixpoint zip_with (f : R -> R -> R) (a b : list R) : list R :=
  match a, b with
  | x :: a', y :: b' => f x y :: zip_with f a' b'
  | _, _ => []
  end.

(** Element-wise binary operation with broadcasting ([a * b], [a + b]). *)
Definition broadcast_op (f : R -> R -> R) (a b : list R) : result (list R) :=
  match broadcast_shape (length a) (length b) with
  | Some n => Ok (zip_with f (expand n a) (expand n b))
  | None => Err (RuntimeError SizeMismatch)
  end.

(** In-place [a += b]: the broadcast shape must be the shape of [a]. *)
Definition iadd (a b : list R) : result (list R) :=
  match broadcast_shape (length a) (length b) with
  | Some n =>
      if Nat.eqb n (length a) then Ok (zip_with Rplus a (expand n b))
      else Err (RuntimeError SizeMismatch)
  | None => Err (RuntimeError SizeMismatch)
  end.

(** ** Pitch conversion and tone synthesis *)

(** [math.log(x, base)]: the quotient of natural logarithms; a non-positive
    [x] is a math domain error. *)
Definition math_log (x base : R) : result R :=
  if Rle_dec x 0 then Err ValueError else Ok (ln x / ln base).

Definition hz_to_midi_pitch (frequency : R) : result R :=
  l <- math_log (frequency / 440) 2 ;;
  let midi_pitch := l * 12 + 69 in
  Ok midi_pitch.

Definition midi_pitch_to_hz (midi_pitch : R) : R :=
  440 * Rpower 2 ((midi_pitch - 69) / 12).

Definition make_sine_wave (freq amp dur sr : R) : result (list R) :=
  let num_samples := py_mul dur sr in
  time_frame <- torch_arange num_samples ;;
  let time_frame_sec := map (fun t => t / sr) time_frame in
  Ok (map (fun t => amp * sin (2 * PI * freq * t)) time_frame_sec).

Definition generate_multi_pitch_tone (pitch_list amp_list : list R) (duration sr : R)
  : result (list R) :=
  if negb (Nat.eqb (length pitch_list) (length amp_list)) then Err AssertionError
  else
    let freq_list := map midi_pitch_to_hz pitch_list in
    chord_tone <- torch_zeros (py_int (py_mul duration sr)) ;;
    for_each
      (fun chord_tone '(i, j) =>
         sine_wave <- make_sine_wave i j duration sr ;;
         iadd chord_tone sine_wave)
      (combine freq_list amp_list) chord_tone.

(** The accumulation loop of [generate_multi_pitch_tone] (lines 69-71) on its
    own, as the proofs below speak about it. *)
Definition add_sines (duration sr : R) (chord_tone : list R) (partials : list (R * R))
  : result (list R) :=
  for_each
    (fun chord_tone '(i, j) =>
       sine_wave <- make_sine_wave i j duration sr ;;
       iadd chord_tone sine_wave)
    partials chord_tone.

Definition make_major_scale_hz_sequence (midi_pitch : R) : list R :=
  let major_midi_list :=
    [midi_pitch; midi_pitch + 2; midi_pitch + 4; midi_pitch + 5; midi_pitch + 7;
     midi_pitch + 9; midi_pitch + 11; midi_pitch + 12] in
  map midi_pitch_to_hz major_midi_list.

(** [torch.cat((a, b))] of two 1-D tensors is their concatenation. *)
Definition generate_sequence_of_pitch (alist_of_hz : list R) (duration sr : R)
  : result (list R) :=
  scale_sine <- torch_zeros (py_int (py_mul duration sr)) ;;
  for_each
    (fun scale_sine i =>
       sine_wave <- make_sine_wave i 1 duration sr ;;
       Ok (scale_sine ++ sine_wave))
    alist_of_hz scale_sine.

Definition make_just_intonation_triad_in_midi_pitch (fundamental_pitch : R)
  : result (list R) :=
  let fundamental_freq := midi_pitch_to_hz fundamental_pitch in
  let just_intonation_freq :=
    [fundamental_freq; (fundamental_freq / 4) * 5; (fundamental_freq / 2) * 3] in
  map_result hz_to_midi_pitch just_intonation_freq.

(** ** Containers shared by the two classes *)

(** Python's [range(start, stop, step)]. *)
Definition py_range (start stop step : Z) : result (list Z) :=
  if (step =? 0)%Z then Err ValueError
  else
    let len :=
      if (0 <? step)%Z then ((stop - start + step - 1) / step)%Z
      else ((start - stop - step - 1) / (- step))%Z in
    Ok (map (fun k => (start + Z.of_nat k * step)%Z) (seq 0 (Z.to_nat len))).

(** A slice bound brought into [0, len] the way Python does it. *)
Definition slice_bound (len i : Z) : Z :=
  let i' := if (i <? 0)%Z then (i + len)%Z else i in
  Z.max 0 (Z.min len i').

(** [l[start:stop]]. *)
Definition py_slice {A : Type} (l : list A) (start stop : Z) : list A :=
  let len := Z.of_nat (length l) in
  let s := slice_bound len start in
  let e := slice_bound len stop in
  firstn (Z.to_nat (e - s)) (skipn (Z.to_nat s) l).

Fixpoint list_set {A : Type} (l : list A) (i : nat) (v : A) : list A :=
  match l, i with
  | [], _ => []
  | _ :: l', O => v :: l'
  | x :: l', S i' => x :: list_set l' i' v
  end.

(** [torch.zeros([rows, cols])]. *)
Definition zeros2 (rows cols : nat) : list (list R) := repeat (repeat 0 cols) rows.

(** [t[i, j]] and [t[i, j] = v] for indices inside the table. *)
Definition get_item (t : list (list R)) (i j : nat) : R := nth j (nth i t []) 0.

Definition set_item (t : list (list R)) (i j : nat) (v : R) : list (list R) :=
  list_set t i (list_set (nth i t []) j v).

Definition sum_list (l : list R) : R := fold_right Rplus 0 l.

(** In-place [a *= b]: as [iadd], with the product. *)
Definition imul (a b : list R) : result (list R) :=
  match broadcast_shape (length a) (length b) with
  | Some n =>
      if Nat.eqb n (length a) then Ok (zip_with Rmult a (expand n b))
      else Err (RuntimeError SizeMismatch)
  | None => Err (RuntimeError SizeMismatch)
  end.

(** [torch.logspace(start, end, steps)] in base 10: [steps] powers of ten
    with evenly spaced exponents from [start] to [end]; a negative number of
    steps is refused. *)
Definition torch_logspace (start stop : R) (steps : Z) : result (list R) :=
  if (steps <? 0)%Z then Err (RuntimeError NegativeDimension)
  else if (steps =? 1)%Z then Ok [Rpower 10 start]
  else Ok (map (fun k => Rpower 10 (start + INR k * ((stop - start) / (IZR steps - 1))))
               (seq 0 (Z.to_nat steps))).

(** [torch.cat(tensors, dim=-1)] of 1-D tensors; the empty list is refused
    like the one of [torch.stack]. *)
Definition torch_cat (tensors : list (list R)) : result (list R) :=
  match tensors with
  | [] => Err (RuntimeError EmptyStack)
  | _ => Ok (concat tensors)
  end.

(** Line 211, [audio[-m:] *= torch.logspace(0, -3, m)]: the slice is a view,
    the product is taken in place on it and the rest of [audio] is kept. *)
Definition fade_out (audio : list R) (m : Z) : result (list R) :=
  let view := py_slice audio (- m) (Z.of_nat (length audio)) in
  ramp <- torch_logspace 0 (-3) m ;;
  scaled <- imul view ramp ;;
  Ok (firstn (length audio - length view) audio ++ scaled).

(** ** Shepard tone tables *)

Module ShepardToneGenerator.

Definition define_pitch : list (list R) :=
  let output := zeros2 24 3 in
  let base_pitch := 24%nat in
  fold_left
    (fun output i =>
       fold_left
         (fun output j =>
            let pitch := ((base_pitch + i) + j * 24)%nat in
            set_item output i j (INR pitch))
         (seq 0 3) output)
    (seq 0 24) output.

Definition define_amplitude : list (list R) :=
  let output := zeros2 24 3 in
  let output :=
    fold_left
      (fun output i =>
         fold_left
           (fun output j =>
              if Nat.eqb j 1 then set_item output i j 1
              else if Nat.eqb j 2 then set_item output i j (exp (-0.388 * INR i))
              else output)
           (seq 0 3) output)
      (seq 0 24) output in
  fold_left
    (fun output i =>
       fold_left
         (fun output j =>
            if Nat.eqb j 0 then set_item output i j (get_item output (23 - i) 2)
            else output)
         (seq 0 3) output)
    (seq 0 24) output.

Record t : Type := mk {
  sr : R;
  dur : R;
  iter : Z;
  fadeout_margin : R;
  pitch_combinations : list (list R);
  amplitude_combinations : list (list R)
}.

Definition init (sr dur_per_step : R) (num_iteration : Z) : t :=
  mk sr dur_per_step num_iteration (py_mul dur_per_step 0.1)
     define_pitch define_amplitude.

(** Row [j] of the amplitude table is read as [nth]; the rows exist for every
    [j] of the loop in the objects [init] builds. *)
Definition generate (self : t) : result (list R) :=
  steps <- py_range 0 (iter self) 1 ;;
  outputs <-
    for_each
      (fun outputs _ =>
         rows <- py_range 0 (Z.of_nat (length (pitch_combinations self))) 1 ;;
         for_each
           (fun outputs j =>
              let current_pitches := nth (Z.to_nat j) (pitch_combinations self) [] in
              let current_amplitudes := nth (Z.to_nat j) (amplitude_combinations self) [] in
              audio <- generate_multi_pitch_tone current_pitches current_amplitudes
                         (dur self) (sr self) ;;
              audio <- fade_out audio (py_int (py_mul (fadeout_margin self) (sr self))) ;;
              Ok (outputs ++ [audio]))
           rows outputs)
      steps [] ;;
  torch_cat outputs.

End ShepardToneGenerator.

(** ** Spectrogram converter *)

(** [torch.hann_window(n)] with its default [periodic=True]: the first [n]
    points of the symmetric window of [n + 1] points; one point is [1]. *)
Definition torch_hann_window (n : Z) : result (list R) :=
  if (n <? 0)%Z then Err (RuntimeError NegativeDimension)
  else if (n =? 1)%Z then Ok [1]
  else Ok (map (fun k => 0.5 * (1 - cos (2 * PI * INR k / IZR n)))
               (seq 0 (Z.to_nat n))).

(** [torch.fft.fft] of a real 1-D tensor: the discrete Fourier transform,
    each output a pair (real part, imaginary part). *)
Definition dft_bin (x : list R) (k : nat) : R * R :=
  let N := INR (length x) in
  let terms (f : R -> R) :=
    map (fun '(n, xn) => xn * f (2 * PI * INR k * INR n / N))
        (combine (seq 0 (length x)) x) in
  (sum_list (terms cos), - sum_list (terms sin)).

Definition torch_fft (x : list R) : result (list (R * R)) :=
  match x with
  | [] => Err (RuntimeError EmptyFFT)
  | _ => Ok (map (dft_bin x) (seq 0 (length x)))
  end.

(** [.abs()] of a complex tensor. *)
Definition complex_abs (z : R * R) : R := sqrt (Rsqr (fst z) + Rsqr (snd z)).

(** [x ** p] for [x >= 0]. A zero base with a negative exponent is infinite
    in the tensor and has no real value; the model gives it [0]. *)
Definition pow_nonneg (x p : R) : R :=
  if Req_dec_T x 0 then (if Req_dec_T p 0 then 1 else 0) else Rpower x p.

(** [torch.stack(frames, 1)]: frame [c] becomes column [c]. *)
Definition torch_stack1 (frames : list (list R)) : result (list (list R)) :=
  match frames with
  | [] => Err (RuntimeError EmptyStack)
  | f0 :: _ =>
      if forallb (fun f => Nat.eqb (length f) (length f0)) frames
      then Ok (map (fun r => map (fun f => nth r f 0) frames) (seq 0 (length f0)))
      else Err (RuntimeError SizeMismatch)
  end.

Inductive tensor : Type :=
| T0 (x : R)
| T1 (l : list R)
| T2 (rows : list (list R)).

Definition ndim (t : tensor) : nat :=
  match t with T0 _ => 0 | T1 _ => 1 | T2 _ => 2 end.

Definition tensor_map (f : R -> R) (t : tensor) : tensor :=
  match t with
  | T0 x => T0 (f x)
  | T1 l => T1 (map f l)
  | T2 rows => T2 (map (map f) rows)
  end.

(** Shape of a tensor, outermost dimension first. *)
Definition shape (t : tensor) : list nat :=
  match t with
  | T0 _ => []
  | T1 l => [length l]
  | T2 rows => [length rows; length (hd [] rows)]
  end.

(** [m.mean(dim=1)] and [m.mean(dim=0)] of a 2-D tensor. *)
Definition mean_dim1 (rows : list (list R)) : list R :=
  map (fun row => sum_list row / INR (length row)) rows.

Definition mean_dim0 (rows : list (list R)) : list R :=
  map (fun c => sum_list (map (fun row => nth c row 0) rows) / INR (length rows))
      (seq 0 (length (hd [] rows))).

Definition log10 (x : R) : R := ln x / ln 10.

Module SpectrogramConverter.

Record t : Type := mk {
  n_fft : Z;
  hop_size : Z;
  sr : R;
  num_mels : Z;
  window_tensor : list R;
  power : R
}.

(** [__init__]; the mel filterbank field, built by torchaudio, is left out. *)
Definition init (n_fft hop_size : Z) (sample_rate : R) (num_mels : Z) (power : R)
  : result t :=
  window_tensor <- torch_hann_window n_fft ;;
  Ok (mk n_fft hop_size sample_rate num_mels window_tensor power).

(** Lines 252-254: the slice of one frame times the window. *)
Definition windowed_slice (self : t) (audio : list R) (start_idx : Z)
  : result (list R) :=
  let end_idx := (start_idx + n_fft self)%Z in
  let corresp_slice := py_slice audio start_idx end_idx in
  broadcast_op Rmult corresp_slice (window_tensor self).

(** Lines 252-256: one column of the spectrogram. *)
Definition spectrogram_slice (self : t) (audio : list R) (start_idx : Z)
  : result (list R) :=
  windowed <- windowed_slice self audio start_idx ;;
  fft_result <- torch_fft windowed ;;
  let fft_abs := map complex_abs fft_result in
  Ok (map (fun x => pow_nonneg x (power self)) fft_abs).

(** Lines 237-242: reduction of the input to one dimension. *)
Definition to_mono (audio : tensor) : result (list R) :=
  match audio with
  | T2 rows =>
      if (length rows <? length (hd [] rows))%nat then Ok (mean_dim0 rows)
      else Ok (mean_dim1 rows)
  | T1 l => Ok l
  | T0 _ => Err AssertionError
  end.

Definition get_spectrogram (self : t) (audio : tensor) : result (list (list R)) :=
  audio <- to_mono audio ;;
  starts <- py_range 0 (Z.of_nat (length audio) - n_fft self + 1) (hop_size self) ;;
  output <- map_result (spectrogram_slice self audio) starts ;;
  stacked <- torch_stack1 output ;;
  Ok (py_slice stacked 0 (n_fft self / 2 + 1)).

Definition frequency_bin_to_hz (self : t) (bin_index : R) : R :=
  bin_index * (sr self / IZR (n_fft self)).

Definition time_bin_to_second (self : t) (bin_index : R) : R :=
  bin_index * IZR (hop_size self) / sr self.

Definition hz_to_mel (hz : tensor) : tensor :=
  tensor_map (fun h => 2595 * log10 (1 + h / 700)) hz.

(** [torch.clamp(x, min=eps)] is [max(x, eps)] on every element. *)
Definition amplitude_to_db (spectrogram : tensor) (eps : R) : tensor :=
  tensor_map (fun x => 10 * log10 (Rmax x eps)) spectrogram.

Definition default_eps : R := 1e-10.

(** [m.T] of a 2-D tensor with at least one row. *)
Definition transpose (m : list (list R)) : list (list R) :=
  map (fun c => map (fun row => nth c row 0) m) (seq 0 (length (hd [] m))).

(** [torch.mm(a, b)]: the columns of [a] must be as many as the rows of [b]. *)
Definition torch_mm (a b : list (list R)) : result (list (list R)) :=
  if Nat.eqb (length (hd [] a)) (length b)
  then Ok (map (fun arow =>
                  map (fun c => sum_list (zip_with Rmult arow (map (fun brow => nth c brow 0) b)))
                      (seq 0 (length (hd [] b))))
               a)
  else Err (RuntimeError SizeMismatch).

(** The filterbank [self.mel_fb], a table of torchaudio, is an argument. *)
Definition convert_spec_to_mel_spec (mel_fb spec : list (list R))
  : result (list (list R)) :=
  torch_mm (transpose mel_fb) spec.

(** [__call__]. *)
Definition call (self : t) (mel_fb : list (list R)) (audio : tensor) : result tensor :=
  spec <- get_spectrogram self audio ;;
  mel_spec <- convert_spec_to_mel_spec mel_fb spec ;;
  let mel_spec_db := amplitude_to_db (T2 mel_spec) default_eps in
  Ok mel_spec_db.

End SpectrogramConverter.

(** ** Reference formulas

    The closed forms the theorems compare the code with. *)

(** Gain of the upper partial at step [i]. *)
Definition upper_gain (i : nat) : R := exp (-0.388 * INR i).

(** The periodic Hann window of [n_fft] points at index [n]. *)
Definition hann_periodic (n_fft : Z) (n : nat) : R :=
  0.5 * (1 - cos (2 * PI * INR n / IZR n_fft)).

(** Frame [c] of the input, sample by sample times the periodic Hann window. *)
Definition windowed_frame (n_fft hop : Z) (audio : list R) (c : nat) : list R :=
  map (fun n => nth (Z.to_nat (Z.of_nat c * hop) + n) audio 0 * hann_periodic n_fft n)
      (seq 0 (Z.to_nat n_fft)).

(** Column [c] of the spectrogram before the rows above [n_fft / 2] are cut. *)
Definition frame_column (n_fft hop : Z) (p : R) (audio : list R) (c : nat) : list R :=
  map (fun k => pow_nonneg (complex_abs (dft_bin (windowed_frame n_fft hop audio c) k)) p)
      (seq 0 (Z.to_nat n_fft)).

(** The elements of a tensor in row-major order. *)
Definition tensor_elems (x : tensor) : list R :=
  match x with
  | T0 v => [v]
  | T1 l => l
  | T2 rows => concat rows
  end.

(** Base-2 logarithm, for intervals in semitones. *)
Definition log2 (x : R) : R := ln x / ln 2.

(** A strictly increasing list. *)
Fixpoint increasing (l : list R) : Prop :=
  match l with
  | x :: ((y :: _) as l') => x < y /\ increasing l'
  | _ => True
  end.

(** One sample of a sine wave, and the sum over all partials. *)
Definition sine_sample (sr : R) (n : nat) (fa : R * R) : R :=
  snd fa * sin (2 * PI * fst fa * (INR n / sr)).

Definition mix_sample (partials : list (R * R)) (sr : R) (n : nat) : R :=
  sum_list (map (sine_sample sr n) partials).

(** [count] samples of the unit sine wave of frequency [f]. *)
Definition sine_wave_samples (f sr : R) (count : nat) : list R :=
  map (fun n => sin (2 * PI * f * INR n / sr)) (seq 0 count).

(** One step of the sequence: row [j] synthesized and faded. *)
Definition step_audio (self : ShepardToneGenerator.t) (j : Z) : result (list R) :=
  audio <- generate_multi_pitch_tone
             (nth (Z.to_nat j) (ShepardToneGenerator.pitch_combinations self) [])
             (nth (Z.to_nat j) (ShepardToneGenerator.amplitude_combinations self) [])
             (ShepardToneGenerator.dur self) (ShepardToneGenerator.sr self) ;;
  fade_out audio
    (py_int (py_mul (ShepardToneGenerator.fadeout_margin self) (ShepardToneGenerator.sr self))).

(** Two tensors of one shape, the first at most the second element by
    element. *)
Definition tensor_le (a b : tensor) : Prop :=
  match a, b with
  | T0 x, T0 y => x <= y
  | T1 l1, T1 l2 => Forall2 Rle l1 l2
  | T2 r1, T2 r2 => Forall2 (Forall2 Rle) r1 r2
  | _, _ => False
  end.

(** A 2-D tensor of [rows] rows and [cols] columns. *)
Definition has_shape (rows cols : nat) (m : list (list R)) : Prop :=
  length m = rows /\ Forall (fun r => length r = cols) m.

(** * Properties *)

Import ShepardToneGenerator SpectrogramConverter.

Ltac len_simpl := rewrite ?length_map, ?length_seq, ?repeat_length.

(** ** Lists built over [seq] *)

Lemma nth_map_seq {A : Type} (g : nat -> A) (k n : nat) (d : A) :
  (n < k)%nat -> nth n (map g (seq 0 k)) d = g n.
Proof.
  intros H. rewrite (nth_indep _ d (g 0%nat)) by (len_simpl; exact H).
  rewrite (map_nth g (seq 0 k) 0%nat n). rewrite seq_nth by exact H. reflexivity.
Qed.

(** ** Rounding to a double *)

Lemma round_half_even_error (y : R) : Rabs (IZR (round_half_even y) - y) <= 1 / 2.
Proof.
  unfold round_half_even. pose proof (Zfloor_bound y) as [H1 H2].
  destruct (Rlt_dec _ _) as [Hl|Hl]; [apply Rabs_le; lra|].
  destruct (Rlt_dec _ _) as [Hg|Hg]; [rewrite plus_IZR; apply Rabs_le; lra|].
  destruct (Z.even _); [|rewrite plus_IZR]; apply Rabs_le; lra.
Qed.

Lemma round_half_even_eval (y : R) (k : Z) :
  Rabs (y - IZR k) < 1 / 2 -> round_half_even y = k.
Proof.
  intros H. apply Rabs_def2 in H as [Hu Hl].
  unfold round_half_even. pose proof (Zfloor_bound y) as [H1 H2].
  assert (Hf : (Zfloor y = k \/ Zfloor y = k - 1)%Z).
  { assert (IZR (Zfloor y) < IZR k + 1) by lra.
    assert (IZR k - 2 < IZR (Zfloor y)) by lra.
    rewrite <- (plus_IZR k 1) in H. rewrite <- (minus_IZR k 2) in H0.
    apply lt_IZR in H, H0. lia. }
  destruct Hf as [Hf|Hf]; rewrite Hf in *.
  - destruct (Rlt_dec _ _); [reflexivity|lra].
  - rewrite minus_IZR in *.
    destruct (Rlt_dec _ _); [lra|]. destruct (Rlt_dec _ _); [lia|lra].
Qed.

Lemma round_half_even_IZR (k : Z) : round_half_even (IZR k) = k.
Proof.
  apply round_half_even_eval. rewrite Rminus_diag, Rabs_R0. lra.
Qed.

Lemma ln_2_pos : 0 < ln 2.
Proof. rewrite <- ln_1. apply ln_increasing; lra. Qed.

Lemma pow2_pos (e : Z) : 0 < powerRZ 2 e.
Proof. apply powerRZ_lt. lra. Qed.

Lemma pow2_exp (e : Z) : powerRZ 2 e = exp (IZR e * ln 2).
Proof. rewrite powerRZ_Rpower by lra. reflexivity. Qed.

Lemma pow2_le (a b : Z) : (a <= b)%Z -> powerRZ 2 a <= powerRZ 2 b.
Proof.
  intros H. rewrite !pow2_exp. apply IZR_le in H. pose proof ln_2_pos.
  destruct H as [H| ->]; [|apply Rle_refl]. apply Rlt_le, exp_increasing. nra.
Qed.

Lemma pow2_lt_inv (a b : Z) : powerRZ 2 a < powerRZ 2 b -> (a < b)%Z.
Proof.
  intros H. destruct (Z.lt_ge_cases a b) as [Hlt|Hge]; [exact Hlt|].
  apply pow2_le in Hge. lra.
Qed.

Lemma pow2_inv (a : Z) : powerRZ 2 a * powerRZ 2 (- a) = 1.
Proof. rewrite <- powerRZ_add by lra. rewrite Z.add_opp_diag_r. reflexivity. Qed.

Lemma exponent_spec (x : R) :
  x <> 0 -> powerRZ 2 (exponent x) <= Rabs x < powerRZ 2 (exponent x + 1).
Proof.
  intros Hx. pose proof ln_2_pos as H2. apply Rabs_pos_lt in Hx.
  unfold exponent. pose proof (Zfloor_bound (ln (Rabs x) / ln 2)) as [Hl Hu].
  set (e := Zfloor _) in *.
  assert (Hl' : IZR e * ln 2 <= ln (Rabs x)).
  { apply (Rmult_le_compat_r (ln 2)) in Hl; [|lra].
    unfold Rdiv in Hl. rewrite Rmult_assoc, Rinv_l, Rmult_1_r in Hl by lra. exact Hl. }
  assert (Hu' : ln (Rabs x) < IZR (e + 1) * ln 2).
  { rewrite plus_IZR. apply (Rmult_lt_compat_r (ln 2)) in Hu; [|lra].
    unfold Rdiv in Hu. rewrite Rmult_assoc, Rinv_l, Rmult_1_r in Hu by lra. exact Hu. }
  rewrite !pow2_exp. split.
  - rewrite <- (exp_ln (Rabs x)) by exact Hx.
    destruct Hl' as [Hl'|Hl']; [apply Rlt_le, exp_increasing; exact Hl' | rewrite Hl'; apply Rle_refl].
  - rewrite <- (exp_ln (Rabs x)) at 1 by exact Hx. apply exp_increasing. exact Hu'.
Qed.

Lemma exponent_eval (x : R) (e : Z) :
  powerRZ 2 e <= Rabs x < powerRZ 2 (e + 1) -> exponent x = e.
Proof.
  intros [Hl Hu]. pose proof ln_2_pos as H2.
  assert (Hx : 0 < Rabs x) by (pose proof (pow2_pos e); lra).
  unfold exponent. apply Zfloor_eq.
  rewrite !pow2_exp in *. rewrite plus_IZR in Hu.
  split.
  - apply (Rmult_le_reg_r (ln 2)); [exact H2|].
    unfold Rdiv. rewrite Rmult_assoc, Rinv_l, Rmult_1_r by lra.
    rewrite <- (ln_exp (IZR e * ln 2)).
    destruct Hl as [Hl|Hl]; [apply Rlt_le, ln_increasing; [apply exp_pos|exact Hl] | rewrite Hl; apply Rle_refl].
  - apply (Rmult_lt_reg_r (ln 2)); [exact H2|].
    unfold Rdiv. rewrite Rmult_assoc, Rinv_l, Rmult_1_r by lra.
    rewrite <- (ln_exp ((IZR e + 1) * ln 2)). apply ln_increasing; assumption.
Qed.

Lemma fl64_0 : fl64 0 = 0.
Proof. unfold fl64. destruct (Req_dec_T 0 0); [reflexivity|contradiction]. Qed.

Lemma fl64_error (x : R) : Rabs (fl64 x - x) <= eps64 * Rabs x.
Proof.
  unfold fl64. destruct (Req_dec_T x 0) as [->|Hx].
  - rewrite Rminus_diag, Rabs_R0. lra.
  - pose proof (exponent_spec x Hx) as [Hl _]. set (e := exponent x) in *.
    pose proof (round_half_even_error (x * powerRZ 2 (52 - e))) as Hr.
    set (k := IZR (round_half_even _)) in *.
    pose proof (pow2_pos (e - 52)) as Hu.
    assert (Hs : powerRZ 2 (52 - e) * powerRZ 2 (e - 52) = 1).
    { replace (e - 52)%Z with (- (52 - e))%Z by lia. apply pow2_inv. }
    replace (k * powerRZ 2 (e - 52) - x)
      with ((k - x * powerRZ 2 (52 - e)) * powerRZ 2 (e - 52))
      by (rewrite Rmult_minus_distr_r, Rmult_assoc, Hs; ring).
    rewrite Rabs_mult, (Rabs_pos_eq (powerRZ 2 (e - 52))) by lra.
    assert (He : powerRZ 2 (e - 52) = 2 * eps64 * powerRZ 2 e).
    { unfold eps64. replace (e - 52)%Z with (1 + (-53 + e))%Z by lia.
      rewrite !powerRZ_add by lra. rewrite powerRZ_1. ring. }
    rewrite He. assert (0 < eps64) by apply pow2_pos. nra.
Qed.

Lemma eps64_small : 0 < eps64 < 1 / 10 ^ 15.
Proof.
  split; [apply pow2_pos|]. unfold eps64.
  change (powerRZ 2 (-53)) with (/ 2 ^ Pos.to_nat 53).
  replace (Pos.to_nat 53) with 53%nat by reflexivity.
  unfold Rdiv. rewrite Rmult_1_l.
  apply Rinv_lt_contravar; [apply Rmult_lt_0_compat; apply pow_lt; lra|].
  rewrite !pow_IZR. apply IZR_lt. reflexivity.
Qed.

Lemma Rabs_le_between (a b : R) : Rabs a <= b -> - b <= a <= b.
Proof. unfold Rabs. destruct (Rcase_abs a); lra. Qed.

Lemma fl64_bounds (x : R) :
  0 <= x -> x * (1 - eps64) <= fl64 x <= x * (1 + eps64).
Proof.
  intros Hx. pose proof (fl64_error x) as H. rewrite (Rabs_pos_eq x) in H by exact Hx.
  apply Rabs_le_between in H. lra.
Qed.

Lemma fl64_bounds_neg (x : R) :
  x <= 0 -> x * (1 + eps64) <= fl64 x <= x * (1 - eps64).
Proof.
  intros Hx. pose proof (fl64_error x) as H. rewrite (Rabs_left1 x) in H by exact Hx.
  apply Rabs_le_between in H. lra.
Qed.

Lemma fl64_nonneg (x : R) : 0 <= x -> 0 <= fl64 x.
Proof.
  intros Hx. pose proof (fl64_bounds x Hx). pose proof eps64_small.
  assert (0 <= x * (1 - eps64)) by (apply Rmult_le_pos; lra). lra.
Qed.

Lemma fl64_pos (x : R) : 0 < x -> 0 < fl64 x.
Proof.
  intros Hx. pose proof (fl64_bounds x (Rlt_le _ _ Hx)). pose proof eps64_small.
  assert (0 < x * (1 - eps64)) by (apply Rmult_lt_0_compat; lra). lra.
Qed.

Lemma fl64_neg (x : R) : x < 0 -> fl64 x < 0.
Proof.
  intros Hx. pose proof (fl64_bounds_neg x (Rlt_le _ _ Hx)). pose proof eps64_small.
  assert (0 < (- x) * (1 - eps64)) by (apply Rmult_lt_0_compat; lra). lra.
Qed.

Lemma fl64_sign (x : R) :
  (0 <= fl64 x <-> 0 <= x) /\ (fl64 x < 0 <-> x < 0) /\ (fl64 x = 0 <-> x = 0).
Proof.
  pose proof (fl64_nonneg x) as Hn. pose proof (fl64_neg x) as Hm.
  pose proof (fl64_pos x) as Hp. pose proof fl64_0 as H0.
  destruct (Rtotal_order x 0) as [Hx|[Hx|Hx]].
  - specialize (Hm Hx). repeat split; intros; lra.
  - subst x. rewrite H0. repeat split; intros; lra.
  - specialize (Hp Hx). repeat split; intros; lra.
Qed.

Lemma pow2_IZR (n : Z) : (0 <= n)%Z -> powerRZ 2 n = IZR (2 ^ n).
Proof.
  intros Hn. destruct n as [|p|p]; [reflexivity| |lia].
  cbn [powerRZ]. rewrite <- Z.pow_pos_fold. rewrite Zpower_pos_powerRZ. reflexivity.
Qed.

Lemma fl64_IZR (z : Z) : (Z.abs z < 2 ^ 53)%Z -> fl64 (IZR z) = IZR z.
Proof.
  intros Hz. unfold fl64. destruct (Req_dec_T (IZR z) 0) as [H0|H0]; [symmetry; exact H0|].
  pose proof (exponent_spec _ H0) as [Hl _]. set (e := exponent (IZR z)) in *.
  assert (He : (e < 53)%Z).
  { apply pow2_lt_inv. rewrite (pow2_IZR 53) by lia.
    eapply Rle_lt_trans; [exact Hl|]. rewrite <- abs_IZR. apply IZR_lt. exact Hz. }
  rewrite (pow2_IZR (52 - e)) by lia. rewrite <- mult_IZR, round_half_even_IZR.
  rewrite mult_IZR, <- pow2_IZR by lia. rewrite Rmult_assoc.
  replace (e - 52)%Z with (- (52 - e))%Z by lia. rewrite pow2_inv. ring.
Qed.

Lemma pow2_neg_IZR (n : Z) : (0 <= n)%Z -> powerRZ 2 (- n) = / IZR (2 ^ n).
Proof.
  intros Hn. rewrite <- (pow2_IZR n Hn).
  apply (Rmult_eq_reg_l (powerRZ 2 n)); [|pose proof (pow2_pos n); lra].
  rewrite pow2_inv, Rinv_r by (pose proof (pow2_pos n); lra). reflexivity.
Qed.

Lemma fl64_eval (x : R) (e k : Z) :
  powerRZ 2 e <= Rabs x < powerRZ 2 (e + 1) ->
  Rabs (x * powerRZ 2 (52 - e) - IZR k) < 1 / 2 ->
  fl64 x = double k (e - 52).
Proof.
  intros He Hk. unfold fl64, double.
  destruct (Req_dec_T x 0) as [->|Hx].
  - rewrite Rabs_R0 in He. pose proof (pow2_pos e). lra.
  - rewrite (exponent_eval x e He). rewrite (round_half_even_eval _ k Hk). reflexivity.
Qed.

(** Powers of two with a literal exponent, as rationals. *)
Ltac pow2_literals :=
  repeat match goal with
  | |- context [powerRZ 2 (Z.pos ?p)] =>
      let v := eval vm_compute in (2 ^ Z.pos p)%Z in
      replace (powerRZ 2 (Z.pos p)) with (IZR v) by (symmetry; apply (pow2_IZR (Z.pos p)); lia)
  | |- context [powerRZ 2 (Z.neg ?p)] =>
      let v := eval vm_compute in (2 ^ Z.pos p)%Z in
      replace (powerRZ 2 (Z.neg p)) with (/ IZR v)
        by (symmetry; apply (pow2_neg_IZR (Z.pos p)); lia)
  | |- context [powerRZ 2 0] => rewrite (powerRZ_O 2)
  end.

(** Doubles are fixed points of the rounding. *)
Lemma two_pow_53 : (2 ^ 53 = 9007199254740992)%Z.
Proof. reflexivity. Qed.

Lemma exponent_shift (x : R) (e : Z) :
  x <> 0 -> exponent (x * powerRZ 2 e) = (exponent x + e)%Z.
Proof.
  intros Hx. pose proof (exponent_spec x Hx) as [Hl Hu]. pose proof (pow2_pos e) as He.
  apply exponent_eval. rewrite Rabs_mult, (Rabs_pos_eq (powerRZ 2 e)) by lra.
  replace (exponent x + e + 1)%Z with (exponent x + 1 + e)%Z by lia.
  rewrite !powerRZ_add by lra. split.
  - apply Rmult_le_compat_r; [apply Rlt_le; exact He | exact Hl].
  - apply Rmult_lt_compat_r; [exact He | rewrite <- powerRZ_add by lra; exact Hu].
Qed.

Lemma fl64_double (m e : Z) : (Z.abs m < 2 ^ 53)%Z -> fl64 (double m e) = double m e.
Proof.
  intros Hm. unfold double. destruct (Z.eq_dec m 0) as [->|Hm0].
  - rewrite Rmult_0_l. apply fl64_0.
  - assert (H0 : IZR m <> 0) by (apply not_0_IZR; exact Hm0).
    pose proof (pow2_pos e) as He.
    unfold fl64. destruct (Req_dec_T _ 0) as [Hz|_].
    { apply Rmult_integral in Hz as [Hz|Hz]; [contradiction|lra]. }
    rewrite exponent_shift by exact H0.
    pose proof (exponent_spec _ H0) as [Hl _]. set (E := exponent (IZR m)) in *.
    assert (HE : (E < 53)%Z).
    { apply pow2_lt_inv. rewrite (pow2_IZR 53) by lia.
      eapply Rle_lt_trans; [exact Hl|]. rewrite <- abs_IZR. apply IZR_lt. exact Hm. }
    replace (IZR m * powerRZ 2 e * powerRZ 2 (52 - (E + e)))
      with (IZR (m * 2 ^ (52 - E))).
    + rewrite round_half_even_IZR, mult_IZR, <- pow2_IZR by lia.
      rewrite Rmult_assoc. f_equal. rewrite <- powerRZ_add by lra. f_equal. lia.
    + rewrite mult_IZR, <- pow2_IZR by lia. rewrite Rmult_assoc. f_equal.
      rewrite <- powerRZ_add by lra. f_equal. lia.
Qed.

Lemma round_half_even_bounds (y : R) :
  (Zfloor y <= round_half_even y <= Zfloor y + 1)%Z.
Proof.
  unfold round_half_even.
  destruct (Rlt_dec _ _); [lia|]. destruct (Rlt_dec _ _); [lia|].
  destruct (Z.even _); lia.
Qed.

Lemma fl64_double_le (m e : Z) : (Z.abs m <= 2 ^ 53)%Z -> fl64 (double m e) = double m e.
Proof.
  intros Hm. destruct (Z.eq_dec (Z.abs m) (2 ^ 53)) as [E|E].
  - assert (Hd : double m e = double (m / 2) (e + 1)).
    { unfold double. rewrite powerRZ_add by lra. rewrite powerRZ_1.
      replace (IZR (m / 2) * (powerRZ 2 e * 2)) with (IZR (m / 2) * 2 * powerRZ 2 e) by ring.
      f_equal. rewrite <- (mult_IZR (m / 2) 2). f_equal.
      rewrite two_pow_53 in E. destruct (Z.abs_spec m) as [[_ A]|[_ A]]; rewrite A in E.
      - subst m. reflexivity.
      - assert (m = (-9007199254740992)%Z) by lia. subst m. reflexivity. }
    rewrite Hd. apply fl64_double.
    rewrite two_pow_53 in *. destruct (Z.abs_spec m) as [[_ A]|[_ A]]; rewrite A in E.
    + subst m. reflexivity.
    + assert (m = (-9007199254740992)%Z) by lia. subst m. reflexivity.
  - apply fl64_double. lia.
Qed.

(** Rounding yields a double: rounding it again changes nothing. *)
Lemma fl64_idempotent (x : R) : fl64 (fl64 x) = fl64 x.
Proof.
  destruct (Req_dec_T x 0) as [->|Hx]; [rewrite fl64_0; apply fl64_0|].
  pose proof (exponent_spec x Hx) as [Hl Hu]. set (e := exponent x) in *.
  set (y := x * powerRZ 2 (52 - e)).
  assert (Hfx : fl64 x = double (round_half_even y) (e - 52)).
  { unfold fl64. destruct (Req_dec_T x 0); [contradiction | reflexivity]. }
  rewrite Hfx.
  assert (Hy : Rabs y < IZR (2 ^ 53)).
  { unfold y. pose proof (pow2_pos (52 - e)) as Hp.
    rewrite Rabs_mult, (Rabs_pos_eq (powerRZ 2 (52 - e))) by lra.
    rewrite <- (pow2_IZR 53) by lia. replace 53%Z with (e + 1 + (52 - e))%Z by lia.
    rewrite powerRZ_add by lra. apply Rmult_lt_compat_r; assumption. }
  pose proof (round_half_even_bounds y) as [Hb1 Hb2].
  pose proof (Zfloor_bound y) as [Hf1 Hf2].
  apply Rabs_def2 in Hy as [Hy1 Hy2].
  apply (fl64_double_le (round_half_even y) (e - 52)).
  assert (Hlo : (- 2 ^ 53 <= Zfloor y)%Z).
  { apply Zfloor_lub. rewrite opp_IZR. lra. }
  assert (Hhi : (Zfloor y < 2 ^ 53)%Z) by (apply lt_IZR; lra).
  lia.
Qed.

(** [py_mul] reads its arguments as the doubles nearest to them. *)
Lemma py_mul_fl64 (x y : R) : py_mul (fl64 x) (fl64 y) = py_mul x y.
Proof. unfold py_mul. rewrite !fl64_idempotent. reflexivity. Qed.

Lemma eps64_milli : 0 < eps64 <= 1 / 5000.
Proof.
  pose proof eps64_small as [He0 He1]. split; [exact He0|].
  assert (1 / 10 ^ 15 <= 1 / 5000); [|lra].
  unfold Rdiv. rewrite !Rmult_1_l.
  apply Rinv_le_contravar; [lra|]. rewrite pow_IZR. apply IZR_le. discriminate.
Qed.

(** The error of a product of two rounded arguments, and of [py_mul]. *)
Lemma fl64_mul_error (a b : R) :
  Rabs (fl64 a * fl64 b - a * b) <= 3 * eps64 * Rabs (a * b).
Proof.
  pose proof (fl64_error a) as Ha. pose proof (fl64_error b) as Hb.
  pose proof eps64_milli as [He0 He1].
  set (da := fl64 a - a) in *. set (db := fl64 b - b) in *.
  replace (fl64 a * fl64 b - a * b) with (da * b + a * db + da * db)
    by (unfold da, db; ring).
  rewrite Rabs_mult.
  pose proof (Rabs_pos a). pose proof (Rabs_pos b).
  pose proof (Rabs_pos da). pose proof (Rabs_pos db).
  eapply Rle_trans; [apply Rabs_triang|].
  eapply Rle_trans; [apply Rplus_le_compat_r, Rabs_triang|].
  rewrite !Rabs_mult.
  assert (H3 : Rabs da * Rabs b <= eps64 * Rabs a * Rabs b)
    by (apply Rmult_le_compat_r; assumption).
  assert (H4 : Rabs a * Rabs db <= Rabs a * (eps64 * Rabs b))
    by (apply Rmult_le_compat_l; assumption).
  assert (H5 : Rabs da * Rabs db <= (eps64 * Rabs a) * (eps64 * Rabs b))
    by (apply Rmult_le_compat; assumption).
  assert (H6 : 0 <= Rabs a * Rabs b) by (apply Rmult_le_pos; assumption).
  assert (H7 : eps64 * eps64 * (Rabs a * Rabs b) <= eps64 * (Rabs a * Rabs b)).
  { apply Rmult_le_compat_r; [exact H6|].
    rewrite <- (Rmult_1_r eps64) at 3. apply Rmult_le_compat_l; lra. }
  lra.
Qed.

Lemma py_mul_error (d sr : R) :
  Rabs (py_mul d sr - d * sr) <= 5 * eps64 * Rabs (d * sr).
Proof.
  unfold py_mul. pose proof (fl64_mul_error d sr) as Hq.
  pose proof (fl64_error (fl64 d * fl64 sr)) as Hr.
  pose proof eps64_milli as [He0 He1].
  set (q := fl64 d * fl64 sr) in *. set (P := d * sr) in *.
  pose proof (Rabs_pos P) as HP.
  assert (Hq' : Rabs q <= Rabs P + 3 * eps64 * Rabs P).
  { replace q with (P + (q - P)) by ring. eapply Rle_trans; [apply Rabs_triang|]. lra. }
  replace (fl64 q - P) with ((fl64 q - q) + (q - P)) by ring.
  eapply Rle_trans; [apply Rabs_triang|].
  assert (H1 : eps64 * Rabs q <= eps64 * (Rabs P + 3 * eps64 * Rabs P))
    by (apply Rmult_le_compat_l; lra).
  assert (H2 : eps64 * (3 * eps64 * Rabs P) <= eps64 * Rabs P).
  { apply Rmult_le_compat_l; [lra|].
    rewrite <- (Rmult_1_l (Rabs P)) at 2. apply Rmult_le_compat_r; lra. }
  lra.
Qed.

Lemma py_mul_near (d sr : R) :
  0 <= d * sr -> 0.999 * (d * sr) <= py_mul d sr <= 1.001 * (d * sr).
Proof.
  intros H. pose proof (py_mul_error d sr) as He. pose proof eps64_milli as [He0 Ht].
  rewrite (Rabs_pos_eq (d * sr)) in He by exact H. apply Rabs_le_between in He.
  assert (0 <= (1 / 1000 - 5 * eps64) * (d * sr)) by (apply Rmult_le_pos; lra).
  lra.
Qed.

Lemma py_mul_near_neg (d sr : R) :
  d * sr <= 0 -> 1.001 * (d * sr) <= py_mul d sr <= 0.999 * (d * sr).
Proof.
  intros H. pose proof (py_mul_error d sr) as He. pose proof eps64_milli as [He0 Ht].
  rewrite (Rabs_left1 (d * sr)) in He by exact H. apply Rabs_le_between in He.
  assert (0 <= (1 / 1000 - 5 * eps64) * (- (d * sr))) by (apply Rmult_le_pos; lra).
  lra.
Qed.

Lemma py_mul_sign (d sr : R) :
  (0 <= py_mul d sr <-> 0 <= d * sr) /\ (py_mul d sr < 0 <-> d * sr < 0)
  /\ (py_mul d sr = 0 <-> d * sr = 0).
Proof.
  destruct (Rle_dec 0 (d * sr)) as [H|H].
  - pose proof (py_mul_near d sr H). repeat split; intros; lra.
  - pose proof (py_mul_near_neg d sr ltac:(lra)). repeat split; intros; lra.
Qed.

Lemma py_mul_nonneg (d sr : R) : 0 <= d * sr -> 0 <= py_mul d sr.
Proof. apply py_mul_sign. Qed.

(** For arguments that are doubles, an exact product that is a whole number
    below [2^53] is not changed by the rounding. *)
Lemma py_mul_IZR (d sr : R) (z : Z) :
  fl64 d = d -> fl64 sr = sr -> (Z.abs z < 2 ^ 53)%Z -> d * sr = IZR z ->
  py_mul d sr = IZR z.
Proof.
  intros Hd Hsr Hz Hx. unfold py_mul. rewrite Hd, Hsr, Hx. apply fl64_IZR. exact Hz.
Qed.


(** The number the fade window is sized from, [(d * 0.1) * sr] with both
    products rounded, stays within 0.4 percent of a tenth of [d * sr]. *)
Lemma fade_product_bounds (d sr : R) :
  0 < d * sr ->
  0.0997 * (d * sr) <= py_mul (py_mul d 0.1) sr <= 0.1004 * (d * sr).
Proof.
  intros HP. pose proof eps64_milli as [He0 He].
  pose proof (py_mul_error d 0.1) as HA. set (A := py_mul d 0.1) in *.
  set (P := d * sr) in *.
  assert (HC : Rabs (A * sr - 0.1 * P) <= 5 * eps64 * (0.1 * P)).
  { replace (A * sr - 0.1 * P) with ((A - d * 0.1) * sr) by (unfold P; ring).
    replace (0.1 * P) with (Rabs (d * 0.1 * sr))
      by (rewrite Rabs_pos_eq; unfold P in *; [ring | lra]).
    rewrite Rabs_mult, (Rabs_mult (d * 0.1) sr), <- Rmult_assoc.
    apply Rmult_le_compat_r; [apply Rabs_pos | exact HA]. }
  apply Rabs_le_between in HC.
  assert (H1 : 0 <= (1 / 1000 - 5 * eps64) * (0.1 * P)) by (apply Rmult_le_pos; lra).
  assert (HAsr : 0.0999 * P <= A * sr <= 0.1001 * P) by lra.
  pose proof (py_mul_near A sr ltac:(lra)) as HD.
  lra.
Qed.

Lemma py_mul_0_l (y : R) : py_mul 0 y = 0.
Proof. unfold py_mul. rewrite fl64_0, Rmult_0_l. apply fl64_0. Qed.

Lemma py_mul_0_r (x : R) : py_mul x 0 = 0.
Proof. unfold py_mul. rewrite fl64_0, Rmult_0_r. apply fl64_0. Qed.

(** The doubles of the decimal literals. *)
Lemma fl64_decimals :
  fl64 0.3 = double_0_3 /\ fl64 0.7 = double_0_7
  /\ fl64 0.07 = double_0_07 /\ fl64 0.1 = double_0_1.
Proof.
  repeat split.
  - apply (fl64_eval _ (-2) 5404319552844595).
    + change (-2 + 1)%Z with (-1)%Z. pow2_literals. rewrite Rabs_pos_eq by lra. lra.
    + change (52 - -2)%Z with 54%Z. pow2_literals. apply Rabs_def1; lra.
  - apply (fl64_eval _ (-1) 6305039478318694).
    + change (-1 + 1)%Z with 0%Z. pow2_literals. rewrite Rabs_pos_eq by lra. lra.
    + change (52 - -1)%Z with 53%Z. pow2_literals. apply Rabs_def1; lra.
  - apply (fl64_eval _ (-4) 5044031582654956).
    + change (-4 + 1)%Z with (-3)%Z. pow2_literals. rewrite Rabs_pos_eq by lra. lra.
    + change (52 - -4)%Z with 56%Z. pow2_literals. apply Rabs_def1; lra.
  - apply (fl64_eval _ (-4) 7205759403792794).
    + change (-4 + 1)%Z with (-3)%Z. pow2_literals. rewrite Rabs_pos_eq by lra. lra.
    + change (52 - -4)%Z with 56%Z. pow2_literals. apply Rabs_def1; lra.
Qed.

Lemma py_mul_0_3_16000 : py_mul 0.3 16000 = 4800 /\ py_mul double_0_3 16000 = 4800.
Proof.
  destruct fl64_decimals as (H3 & _).
  assert (H : fl64 (double_0_3 * 16000) = 4800).
  { unfold double_0_3.
    replace 4800 with (double 5277655813324800 (12 - 52)).
    - apply (fl64_eval _ 12 5277655813324800).
      + unfold double. change (12 + 1)%Z with 13%Z. pow2_literals.
        rewrite Rabs_pos_eq by lra. lra.
      + unfold double. change (52 - 12)%Z with 40%Z. pow2_literals. apply Rabs_def1; lra.
    - unfold double. change (12 - 52)%Z with (-40)%Z. pow2_literals. lra. }
  assert (Hd : fl64 double_0_3 = double_0_3)
    by exact (fl64_double 5404319552844595 (-54) eq_refl).
  unfold py_mul. rewrite H3, Hd, (fl64_IZR 16000) by reflexivity. split; exact H.
Qed.

Lemma py_mul_eval (x y x' y' r : R) :
  fl64 x = x' -> fl64 y = y' -> fl64 (x' * y') = r -> py_mul x y = r.
Proof. intros <- <- <-. reflexivity. Qed.

Lemma fl64_doubles :
  fl64 double_0_3 = double_0_3 /\ fl64 double_0_7 = double_0_7
  /\ fl64 double_0_07 = double_0_07 /\ fl64 double_0_1 = double_0_1.
Proof.
  repeat split.
  - exact (fl64_double 5404319552844595 (-54) eq_refl).
  - exact (fl64_double 6305039478318694 (-53) eq_refl).
  - exact (fl64_double 5044031582654956 (-56) eq_refl).
  - exact (fl64_double 7205759403792794 (-56) eq_refl).
Qed.

(** The products of the examples: [0.07 * 100] is 7.000000000000001,
    [0.1 * 10] is 1.0, [0.7 * 44100] is 30869.999999999996 and [1/49 * 49]
    is 0.9999999999999999. *)
Lemma py_mul_0_07_100 :
  py_mul 0.07 100 = double 7881299347898369 (-50)
  /\ py_mul double_0_07 100 = double 7881299347898369 (-50).
Proof.
  destruct fl64_decimals as (_ & _ & H7 & _). destruct fl64_doubles as (_ & _ & D7 & _).
  assert (H : fl64 (double_0_07 * 100) = double 7881299347898369 (2 - 52)).
  { unfold double_0_07. apply (fl64_eval _ 2 7881299347898369).
    - unfold double. change (2 + 1)%Z with 3%Z. pow2_literals.
      rewrite Rabs_pos_eq by lra. lra.
    - unfold double. change (52 - 2)%Z with 50%Z. pow2_literals. apply Rabs_def1; lra. }
  split; [apply (py_mul_eval _ _ double_0_07 100) | apply (py_mul_eval _ _ double_0_07 100)];
    try exact H; try exact H7; try exact D7; apply (fl64_IZR 100); reflexivity.
Qed.

Lemma py_mul_0_1_10 : py_mul 0.1 10 = 1 /\ py_mul double_0_1 10 = 1.
Proof.
  destruct fl64_decimals as (_ & _ & _ & H1). destruct fl64_doubles as (_ & _ & _ & D1).
  assert (H : fl64 (double_0_1 * 10) = 1).
  { unfold double_0_1. transitivity (double 4503599627370496 (0 - 52)).
    - apply (fl64_eval _ 0 4503599627370496).
      + unfold double. change (0 + 1)%Z with 1%Z. pow2_literals.
        rewrite Rabs_pos_eq by lra. lra.
      + unfold double. change (52 - 0)%Z with 52%Z. pow2_literals. apply Rabs_def1; lra.
    - unfold double. change (0 - 52)%Z with (-52)%Z. pow2_literals. lra. }
  split; [apply (py_mul_eval _ _ double_0_1 10) | apply (py_mul_eval _ _ double_0_1 10)];
    try exact H; try exact H1; try exact D1; apply (fl64_IZR 10); reflexivity.
Qed.

Lemma py_mul_0_7_44100 :
  py_mul 0.7 44100 = double 8485480987361279 (-38)
  /\ py_mul double_0_7 44100 = double 8485480987361279 (-38).
Proof.
  destruct fl64_decimals as (_ & H7 & _). destruct fl64_doubles as (_ & D7 & _).
  assert (H : fl64 (double_0_7 * 44100) = double 8485480987361279 (14 - 52)).
  { unfold double_0_7. apply (fl64_eval _ 14 8485480987361279).
    - unfold double. change (14 + 1)%Z with 15%Z. pow2_literals.
      rewrite Rabs_pos_eq by lra. lra.
    - unfold double. change (52 - 14)%Z with 38%Z. pow2_literals. apply Rabs_def1; lra. }
  split; [apply (py_mul_eval _ _ double_0_7 44100) | apply (py_mul_eval _ _ double_0_7 44100)];
    try exact H; try exact H7; try exact D7; apply (fl64_IZR 44100); reflexivity.
Qed.

Lemma py_mul_49th_49 : py_mul (1 / 49) 49 = double 9007199254740991 (-53).
Proof.
  apply (py_mul_eval _ _ (double 5882252574524729 (-58)) 49).
  - apply (fl64_eval _ (-6) 5882252574524729).
    + change (-6 + 1)%Z with (-5)%Z. pow2_literals. rewrite Rabs_pos_eq by lra. lra.
    + change (52 - -6)%Z with 58%Z. pow2_literals. apply Rabs_def1; lra.
  - apply (fl64_IZR 49). reflexivity.
  - apply (fl64_eval _ (-1) 9007199254740991).
    + unfold double. change (-1 + 1)%Z with 0%Z. pow2_literals.
      rewrite Rabs_pos_eq by lra. lra.
    + unfold double. change (52 - -1)%Z with 53%Z. pow2_literals. apply Rabs_def1; lra.
Qed.

Lemma py_mul_third_48000 : py_mul (1 / 3) 48000 = 16000.
Proof.
  apply (py_mul_eval _ _ (double 6004799503160661 (-54)) 48000).
  - apply (fl64_eval _ (-2) 6004799503160661).
    + change (-2 + 1)%Z with (-1)%Z. pow2_literals. rewrite Rabs_pos_eq by lra. lra.
    + change (52 - -2)%Z with 54%Z. pow2_literals. apply Rabs_def1; lra.
  - apply (fl64_IZR 48000). reflexivity.
  - transitivity (double 8796093022208000 (13 - 52)).
    + apply (fl64_eval _ 13 8796093022208000).
      * unfold double. change (13 + 1)%Z with 14%Z. pow2_literals.
        rewrite Rabs_pos_eq by lra. lra.
      * unfold double. change (52 - 13)%Z with 39%Z. pow2_literals. apply Rabs_def1; lra.
    + unfold double. change (13 - 52)%Z with (-39)%Z. pow2_literals. lra.
Qed.

(** Where the examples' products lie between the whole numbers. *)
Lemma py_mul_0_07_100_parts :
  Zfloor (py_mul 0.07 100) = 7%Z /\ Zceil (py_mul 0.07 100) = 8%Z.
Proof.
  destruct py_mul_0_07_100 as [H7 _].
  assert (Hv : 7 < py_mul 0.07 100 < 8) by (rewrite H7; unfold double; pow2_literals; lra).
  split; [apply Zfloor_eq | apply Zceil_eq]; lra.
Qed.

Lemma py_mul_0_7_44100_parts :
  Zfloor (py_mul 0.7 44100) = 30869%Z /\ Zceil (py_mul 0.7 44100) = 30870%Z.
Proof.
  destruct py_mul_0_7_44100 as [H7 _].
  assert (Hv : 30869 < py_mul 0.7 44100 < 30870)
    by (rewrite H7; unfold double; pow2_literals; lra).
  split; [apply Zfloor_eq | apply Zceil_eq]; lra.
Qed.

Lemma py_mul_3_16000 : py_mul 3 16000 = 48000.
Proof.
  apply (py_mul_IZR 3 16000 48000); try (apply fl64_IZR; reflexivity);
    [reflexivity | rewrite <- mult_IZR; reflexivity].
Qed.

(** ** Integer parts *)

Lemma Zceil_IZR (z : Z) : Zceil (IZR z) = z.
Proof. apply Zceil_eq. lra. Qed.

Lemma Zceil_nonneg (x : R) : 0 <= x -> (0 <= Zceil x)%Z.
Proof. intros H. rewrite <- (Zceil_IZR 0). apply Zceil_le. exact H. Qed.

Lemma Zceil_nonint (x : R) :
  (forall z, x <> IZR z) -> Zceil x = (Zfloor x + 1)%Z.
Proof.
  intros Hx. apply Zceil_eq.
  pose proof (Zfloor_bound x) as [H1 H2].
  assert (IZR (Zfloor x) < x).
  { destruct H1 as [H1|H1]; [assumption|]. exfalso. apply (Hx (Zfloor x)). auto. }
  rewrite plus_IZR. lra.
Qed.

Lemma between_not_int (k : Z) (x : R) :
  IZR k < x < IZR k + 1 -> forall z, x <> IZR z.
Proof.
  intros [Hl Hu] z ->. rewrite <- (plus_IZR k 1) in Hu.
  apply lt_IZR in Hl, Hu. lia.
Qed.

Lemma py_int_nonneg (x : R) : 0 <= x -> py_int x = Zfloor x.
Proof.
  intros H. unfold py_int. destruct (Rle_dec 0 x); [reflexivity|contradiction].
Qed.

Lemma py_int_neg (x : R) : x < 0 -> py_int x = Zceil x.
Proof. intros H. unfold py_int. destruct (Rle_dec 0 x); [lra|reflexivity]. Qed.

(** ** Tone synthesis *)

Lemma torch_arange_ok (x : R) :
  0 <= x -> torch_arange x = Ok (map INR (seq 0 (Z.to_nat (Zceil x)))).
Proof. intros H. unfold torch_arange. destruct (Rlt_dec x 0); [lra|reflexivity]. Qed.

Lemma torch_zeros_nonneg (n : Z) :
  (0 <= n)%Z -> torch_zeros n = Ok (repeat 0 (Z.to_nat n)).
Proof. intros H. unfold torch_zeros. destruct (Z.ltb_spec n 0); [lia|reflexivity]. Qed.

Lemma make_sine_wave_ok (freq amp dur sr : R) :
  0 <= py_mul dur sr ->
  make_sine_wave freq amp dur sr =
  Ok (map (fun n => amp * sin (2 * PI * freq * (INR n / sr)))
          (seq 0 (Z.to_nat (Zceil (py_mul dur sr))))).
Proof.
  intros H. unfold make_sine_wave. rewrite torch_arange_ok by assumption.
  cbn [bind]. rewrite !map_map. reflexivity.
Qed.

Lemma make_sine_wave_neg (f a d sr : R) :
  py_mul d sr < 0 -> make_sine_wave f a d sr = Err (RuntimeError ArangeBounds).
Proof.
  intros H. unfold make_sine_wave, torch_arange.
  destruct (Rlt_dec (py_mul d sr) 0); [reflexivity|contradiction].
Qed.

(** C7, amended. For every frequency [f], amplitude [a], duration [d >= 0]
    and sample rate [sr >= 0], [make_sine_wave f a d sr] returns a waveform
    of exactly [ceil x] samples, [x] being the product [d * sr] as the
    machine computes it (the product of the two doubles, rounded to a
    double), whose [n]-th sample is [a * sin (2 * PI * f * n / sr)]. When
    that product is a whole number [z] the waveform has [z] samples, which is
    the case whenever [d] and [sr] are doubles whose exact product is a whole
    number below [2^53]; duration [0] yields the empty waveform. *)
Theorem make_sine_wave_samples (f a d sr : R) :
  0 <= d -> 0 <= sr ->
  exists w, make_sine_wave f a d sr = Ok w
    /\ Z.of_nat (length w) = Zceil (py_mul d sr)
    /\ (forall n, (n < length w)%nat -> nth n w 0 = a * sin (2 * PI * f * INR n / sr))
    /\ (forall z, py_mul d sr = IZR z -> Z.of_nat (length w) = z)
    /\ (forall z, (z < 2 ^ 53)%Z -> fl64 d = d -> fl64 sr = sr -> d * sr = IZR z ->
                  Z.of_nat (length w) = z)
    /\ (d = 0 -> w = []).
Proof.
  intros Hd Hsr.
  assert (Hp : 0 <= d * sr) by (apply Rmult_le_pos; assumption).
  assert (Hx : 0 <= py_mul d sr) by (apply py_mul_nonneg; exact Hp).
  eexists. split; [apply make_sine_wave_ok; exact Hx|].
  len_simpl.
  assert (Hlen : Z.of_nat (Z.to_nat (Zceil (py_mul d sr))) = Zceil (py_mul d sr))
    by (apply Z2Nat.id, Zceil_nonneg, Hx).
  split; [exact Hlen|]. split; [|split; [|split]].
  - intros n Hn. rewrite nth_map_seq by exact Hn.
    f_equal. f_equal. unfold Rdiv. ring.
  - intros z Hz. rewrite Hlen, Hz. apply Zceil_IZR.
  - intros z Hz Hfd Hfsr Hexact. rewrite Hlen.
    assert (0 <= z)%Z by (apply le_IZR; rewrite <- Hexact; exact Hp).
    rewrite (py_mul_IZR d sr z) by (assumption || lia). apply Zceil_IZR.
  - intros ->. rewrite py_mul_0_l, (Zceil_IZR 0). reflexivity.
Qed.

Lemma make_sine_wave_samples_witness :
  (exists w, make_sine_wave 440 1 3 16000 = Ok w /\ Z.of_nat (length w) = 48000%Z)
  /\ (exists w, make_sine_wave 440 1 0.07 100 = Ok w /\ Z.of_nat (length w) = 8%Z).
Proof.
  split.
  - destruct (make_sine_wave_samples 440 1 3 16000) as (w & Hw & _ & _ & Hz & _);
      [lra | lra |].
    exists w. split; [exact Hw|]. apply Hz. exact py_mul_3_16000.
  - destruct (make_sine_wave_samples 440 1 0.07 100) as (w & Hw & Hl & _); [lra | lra |].
    exists w. split; [exact Hw|]. rewrite Hl. apply py_mul_0_07_100_parts.
Defined.

(** C7 as stated fails: 0.00001 s at 16000 Hz is 0.16 of a sample; the
    waveform has one sample, and no integer within 1/2 of 0.16 is 1. *)
Lemma make_sine_wave_not_rounded :
  exists w, make_sine_wave 440 1 0.00001 16000 = Ok w
    /\ length w = 1%nat
    /\ forall z, Rabs (0.00001 * 16000 - IZR z) <= 1 / 2 -> Z.of_nat (length w) <> z.
Proof.
  pose proof (py_mul_near 0.00001 16000 ltac:(lra)) as Hn.
  eexists. split; [apply make_sine_wave_ok; lra|].
  assert (Hc : Zceil (py_mul 0.00001 16000) = 1%Z) by (apply Zceil_eq; lra).
  len_simpl. rewrite Hc. split; [reflexivity|].
  intros z Hz Heq. change (Z.of_nat (Z.to_nat 1)) with 1%Z in Heq. subst z.
  unfold Rabs in Hz. destruct (Rcase_abs _); lra.
Qed.

Lemma make_sine_wave_count (f a d sr : R) (k : Z) :
  (0 <= k)%Z -> IZR k < py_mul d sr <= IZR k + 1 ->
  exists w, make_sine_wave f a d sr = Ok w /\ Z.of_nat (length w) = (k + 1)%Z.
Proof.
  intros Hk Hx. assert (H0 : 0 <= py_mul d sr) by (apply IZR_le in Hk; lra).
  eexists. split; [apply make_sine_wave_ok; exact H0|]. len_simpl.
  replace (Zceil (py_mul d sr)) with (k + 1)%Z; [lia|].
  symmetry. apply Zceil_eq. rewrite plus_IZR. replace (IZR k + 1 - 1) with (IZR k) by ring.
  exact Hx.
Qed.

(** The sample counts of the code when the decimal product is whole and the
    computed one is not what the decimals suggest: [0.07] s at 100 Hz gives 8
    samples (the product is 7.000000000000001); the double [0.1] is above one
    tenth, yet at 10 Hz it gives 1 sample (the product rounds to 1.0). The
    same with the decimal or with its double as the argument. *)
Lemma make_sine_wave_double_counts (f a : R) :
  (exists w, make_sine_wave f a 0.07 100 = Ok w /\ Z.of_nat (length w) = 8%Z)
  /\ (exists w, make_sine_wave f a double_0_07 100 = Ok w /\ Z.of_nat (length w) = 8%Z)
  /\ (exists w, make_sine_wave f a 0.1 10 = Ok w /\ Z.of_nat (length w) = 1%Z)
  /\ (exists w, make_sine_wave f a double_0_1 10 = Ok w /\ Z.of_nat (length w) = 1%Z)
  /\ 1 < double_0_1 * 10.
Proof.
  destruct py_mul_0_07_100 as [H7 D7]. destruct py_mul_0_1_10 as [H1 D1].
  assert (Hv : 7 < double 7881299347898369 (-50) <= 7 + 1)
    by (unfold double; pow2_literals; lra).
  split; [|split; [|split; [|split]]].
  - apply (make_sine_wave_count f a _ _ 7); [lia | rewrite H7; exact Hv].
  - apply (make_sine_wave_count f a _ _ 7); [lia | rewrite D7; exact Hv].
  - apply (make_sine_wave_count f a _ _ 0); [lia | rewrite H1; lra].
  - apply (make_sine_wave_count f a _ _ 0); [lia | rewrite D1; lra].
  - unfold double_0_1, double. pow2_literals. lra.
Qed.

(** *** The in-place sum *)

Lemma broadcast_shape_same (n : nat) : broadcast_shape n n = Some n.
Proof. unfold broadcast_shape. rewrite Nat.eqb_refl. reflexivity. Qed.

Lemma expand_same (a : list R) : expand (length a) a = a.
Proof. unfold expand. rewrite Nat.eqb_refl. reflexivity. Qed.

Lemma iadd_same_length (a b : list R) :
  length a = length b -> iadd a b = Ok (zip_with Rplus a b).
Proof.
  intros H. unfold iadd. rewrite H, broadcast_shape_same, Nat.eqb_refl, expand_same.
  reflexivity.
Qed.

Lemma iadd_succ_length (a b : list R) :
  (1 <= length a)%nat -> length b = S (length a) ->
  iadd a b = Err (RuntimeError SizeMismatch).
Proof.
  intros Ha Hb. unfold iadd, broadcast_shape. rewrite Hb.
  destruct (Nat.eqb_spec (length a) (S (length a))) as [E|_]; [lia|].
  destruct (Nat.eqb_spec (length a) 1) as [E|_].
  - destruct (Nat.eqb_spec (S (length a)) (length a)); [lia|reflexivity].
  - destruct (Nat.eqb_spec (S (length a)) 1); [lia|reflexivity].
Qed.

(** A one-sample tensor broadcasts onto the empty one. *)
Lemma iadd_empty_one (b : list R) : length b = 1%nat -> iadd [] b = Ok [].
Proof. intros Hb. unfold iadd, broadcast_shape. rewrite Hb. reflexivity. Qed.

Lemma zip_with_zeros (w : list R) : zip_with Rplus (repeat 0 (length w)) w = w.
Proof.
  induction w as [|x w IH]; [reflexivity|].
  cbn [length repeat zip_with]. rewrite IH, Rplus_0_l. reflexivity.
Qed.

Lemma iadd_not_assertion (a b : list R) : iadd a b <> Err AssertionError.
Proof.
  unfold iadd. destruct (broadcast_shape _ _); [destruct (Nat.eqb _ _)|]; discriminate.
Qed.

Lemma make_sine_wave_not_assertion (f a d sr : R) :
  make_sine_wave f a d sr <> Err AssertionError.
Proof.
  unfold make_sine_wave, torch_arange. destruct (Rlt_dec _ _); discriminate.
Qed.

Lemma add_sines_not_assertion (d sr : R) (partials : list (R * R)) (chord : list R) :
  add_sines d sr chord partials <> Err AssertionError.
Proof.
  unfold add_sines. revert chord.
  induction partials as [|[i j] rest IH]; intros chord; cbn [for_each]; [discriminate|].
  destruct (make_sine_wave i j d sr) as [w|e] eqn:Hw; cbn [bind].
  - destruct (iadd chord w) as [c|e] eqn:Hc; cbn [bind]; [apply IH|].
    rewrite <- Hc. apply iadd_not_assertion.
  - rewrite <- Hw. apply make_sine_wave_not_assertion.
Qed.

Lemma add_sines_empty_acc (d sr : R) (partials : list (R * R)) :
  0 < py_mul d sr < 1 -> add_sines d sr [] partials = Ok [].
Proof.
  intros Hx. unfold add_sines.
  assert (Hc : Zceil (py_mul d sr) = 1%Z) by (apply Zceil_eq; lra).
  induction partials as [|[i j] rest IH]; cbn [for_each]; [reflexivity|].
  rewrite make_sine_wave_ok by lra. cbn [bind].
  rewrite iadd_empty_one by (len_simpl; rewrite Hc; reflexivity).
  cbn [bind]. exact IH.
Qed.

Lemma generate_multi_pitch_tone_unfold (pl al : list R) (d sr : R) :
  length pl = length al ->
  generate_multi_pitch_tone pl al d sr =
  (chord_tone <- torch_zeros (py_int (py_mul d sr)) ;;
   add_sines d sr chord_tone (combine (map midi_pitch_to_hz pl) al)).
Proof.
  intros H. unfold generate_multi_pitch_tone. rewrite H, Nat.eqb_refl. reflexivity.
Qed.

(** C8. [generate_multi_pitch_tone] fails with the error of its length check
    ([AssertionError], the spec's LengthMismatch) if and only if the pitch
    list and the amplitude list have different lengths; with equal lengths
    that error is not raised, whatever else happens. *)
Theorem generate_multi_pitch_tone_length_check
    (pitch_list amp_list : list R) (d sr : R) :
  generate_multi_pitch_tone pitch_list amp_list d sr = Err AssertionError
  <-> length pitch_list <> length amp_list.
Proof.
  unfold generate_multi_pitch_tone.
  destruct (Nat.eqb_spec (length pitch_list) (length amp_list)) as [E|E]; cbn [negb].
  - split; [|contradiction]. intros H. exfalso. revert H.
    unfold torch_zeros. destruct (_ <? 0)%Z; cbn [bind]; [discriminate|].
    apply add_sines_not_assertion.
  - split; [intros _; exact E | reflexivity].
Qed.

(** When [py_mul d sr] is a whole number of samples, the tone of one partial is
    the sine wave itself. *)
Lemma generate_single_pitch_whole (p a d sr : R) (z : Z) :
  (0 <= z)%Z -> py_mul d sr = IZR z ->
  generate_multi_pitch_tone [p] [a] d sr = make_sine_wave (midi_pitch_to_hz p) a d sr
  /\ is_ok (make_sine_wave (midi_pitch_to_hz p) a d sr) = true.
Proof.
  intros Hz Hx.
  assert (H0 : 0 <= py_mul d sr) by (rewrite Hx; apply IZR_le; exact Hz).
  rewrite generate_multi_pitch_tone_unfold by reflexivity.
  rewrite py_int_nonneg by exact H0. rewrite Hx, ZfloorZ.
  rewrite torch_zeros_nonneg by exact Hz. cbn [bind map combine add_sines for_each].
  rewrite make_sine_wave_ok by exact H0. cbn [bind is_ok]. split; [|reflexivity].
  rewrite Hx, Zceil_IZR.
  set (w := map _ (seq 0 (Z.to_nat z))).
  assert (Hlen : length w = Z.to_nat z) by (unfold w; len_simpl; reflexivity).
  rewrite iadd_same_length by (rewrite repeat_length, Hlen; reflexivity).
  cbn [bind]. rewrite <- Hlen, zip_with_zeros. reflexivity.
Qed.

(** C4, the failing input. One partial of 0.0001 s at 16000 Hz (1.6 samples):
    the sine wave has two samples, the accumulator one, and the sum raises a
    size mismatch instead of returning the sine wave. *)
Theorem generate_single_pitch_fractional_fails :
  generate_multi_pitch_tone [69] [1] 0.0001 16000 = Err (RuntimeError SizeMismatch)
  /\ exists w, make_sine_wave (midi_pitch_to_hz 69) 1 0.0001 16000 = Ok w
               /\ length w = 2%nat.
Proof.
  pose proof (py_mul_near 0.0001 16000 ltac:(lra)) as Hn.
  assert (Hf : Zfloor (py_mul 0.0001 16000) = 1%Z) by (apply Zfloor_eq; lra).
  assert (Hc : Zceil (py_mul 0.0001 16000) = 2%Z) by (apply Zceil_eq; lra).
  split.
  - rewrite generate_multi_pitch_tone_unfold by reflexivity.
    rewrite py_int_nonneg by lra. rewrite Hf.
    cbn [torch_zeros Z.ltb Z.compare bind map combine add_sines for_each].
    rewrite make_sine_wave_ok by lra. rewrite Hc. cbn [bind].
    rewrite iadd_succ_length; [reflexivity | rewrite repeat_length; lia |].
    len_simpl. lia.
  - eexists. split; [apply make_sine_wave_ok; lra|].
    len_simpl. rewrite Hc. reflexivity.
Qed.

(** C10, amended. Let [x] be the product [d * sr] as the machine computes it
    (rounded to a double). For a non-empty pitch list with an amplitude list
    of the same length and [x] not a whole number: when [x > 1] the call
    raises a size mismatch, the accumulator having [floor x] samples and
    every sine wave one more, [ceil x]; when [x < 0] it raises as well; when
    [0 < x < 1] the one-sample sine waves broadcast onto the empty
    accumulator and the empty waveform is returned. *)
Theorem generate_multi_pitch_tone_fractional
    (pitch_list amp_list : list R) (d sr : R) :
  pitch_list <> [] ->
  length pitch_list = length amp_list ->
  (forall z, py_mul d sr <> IZR z) ->
  (1 < py_mul d sr ->
     generate_multi_pitch_tone pitch_list amp_list d sr = Err (RuntimeError SizeMismatch)
     /\ torch_zeros (py_int (py_mul d sr)) = Ok (repeat 0 (Z.to_nat (Zfloor (py_mul d sr))))
     /\ (forall f a, exists w, make_sine_wave f a d sr = Ok w
                               /\ length w = S (Z.to_nat (Zfloor (py_mul d sr)))
                               /\ Z.of_nat (length w) = Zceil (py_mul d sr)))
  /\ (py_mul d sr < 0 -> is_ok (generate_multi_pitch_tone pitch_list amp_list d sr) = false)
  /\ (0 < py_mul d sr < 1 -> generate_multi_pitch_tone pitch_list amp_list d sr = Ok []).
Proof.
  intros Hne Hlen Hfrac.
  rewrite generate_multi_pitch_tone_unfold by exact Hlen.
  destruct pitch_list as [|p ps]; [contradiction|].
  destruct amp_list as [|a al]; [discriminate|].
  cbn [map combine].
  pose proof (Zceil_nonint _ Hfrac) as Hc.
  split; [|split].
  - intros Hx.
    assert (H1 : (1 <= Zfloor (py_mul d sr))%Z) by (apply Zfloor_lub; lra).
    rewrite py_int_nonneg by lra. rewrite torch_zeros_nonneg by lia.
    cbn [bind add_sines for_each]. rewrite make_sine_wave_ok by lra. cbn [bind].
    split; [|split].
    + rewrite iadd_succ_length; [reflexivity | rewrite repeat_length; lia |].
      len_simpl. rewrite Hc. lia.
    + reflexivity.
    + intros f0 a0. eexists. split; [apply make_sine_wave_ok; lra|].
      len_simpl. rewrite Hc. split; lia.
  - intros Hneg. rewrite py_int_neg by exact Hneg.
    unfold torch_zeros. destruct (Z.ltb_spec (Zceil (py_mul d sr)) 0); [reflexivity|].
    cbn [bind add_sines for_each]. rewrite make_sine_wave_neg by exact Hneg. reflexivity.
  - intros Hx.
    assert (Hf : Zfloor (py_mul d sr) = 0%Z) by (apply Zfloor_eq; lra).
    rewrite py_int_nonneg by lra. rewrite Hf.
    cbn [torch_zeros Z.ltb Z.compare Z.to_nat repeat bind].
    apply add_sines_empty_acc. exact Hx.
Qed.

Lemma generate_multi_pitch_tone_fractional_witness :
  generate_multi_pitch_tone [60; 64; 67] [1; 1; 1] 0.001953125 16000
  = Err (RuntimeError SizeMismatch).
Proof.
  pose proof (py_mul_near 0.001953125 16000 ltac:(lra)) as Hn.
  destruct (generate_multi_pitch_tone_fractional [60; 64; 67] [1; 1; 1] 0.001953125 16000)
    as (H & _ & _).
  - discriminate.
  - reflexivity.
  - apply (between_not_int 31). lra.
  - apply H. lra.
Defined.

(** C10 as stated fails: 0.00001 s at 16000 Hz is 0.16 of a sample, not a
    whole number (before and after rounding), yet the call returns (the
    empty waveform). *)
Lemma generate_multi_pitch_tone_fraction_below_one :
  (forall z, 0.00001 * 16000 <> IZR z)
  /\ (forall z, py_mul 0.00001 16000 <> IZR z)
  /\ generate_multi_pitch_tone [69] [1] 0.00001 16000 = Ok []
  /\ generate_multi_pitch_tone [69] [1] 0.00001 16000 <> Err (RuntimeError SizeMismatch).
Proof.
  pose proof (py_mul_near 0.00001 16000 ltac:(lra)) as Hn.
  assert (H : generate_multi_pitch_tone [69] [1] 0.00001 16000 = Ok []).
  { rewrite generate_multi_pitch_tone_unfold by reflexivity.
    assert (Hf : Zfloor (py_mul 0.00001 16000) = 0%Z) by (apply Zfloor_eq; lra).
    rewrite py_int_nonneg by lra. rewrite Hf.
    cbn [torch_zeros Z.ltb Z.compare Z.to_nat repeat bind].
    apply add_sines_empty_acc. lra. }
  split; [apply (between_not_int 0); lra|].
  split; [apply (between_not_int 0); lra|].
  split; [exact H | rewrite H; discriminate].
Qed.

(** A non-empty tone whose computed sample count is not whole and above 1
    raises: the accumulator and the first sine wave differ in length. *)
Lemma add_sines_mismatch (d sr f a : R) (rest : list (R * R)) :
  (forall z, py_mul d sr <> IZR z) -> 1 < py_mul d sr ->
  add_sines d sr (repeat 0 (Z.to_nat (Zfloor (py_mul d sr)))) ((f, a) :: rest)
  = Err (RuntimeError SizeMismatch).
Proof.
  intros Hfrac Hx. pose proof (Zceil_nonint _ Hfrac) as Hc.
  assert (H1 : (1 <= Zfloor (py_mul d sr))%Z) by (apply Zfloor_lub; lra).
  cbn [add_sines for_each]. rewrite make_sine_wave_ok by lra. cbn [bind].
  rewrite iadd_succ_length; [reflexivity | rewrite repeat_length; lia |].
  len_simpl. rewrite Hc. lia.
Qed.

Lemma generate_multi_pitch_tone_mismatch (pitch_list amp_list : list R) (d sr : R) :
  pitch_list <> [] -> length pitch_list = length amp_list ->
  (forall z, py_mul d sr <> IZR z) -> 1 < py_mul d sr ->
  generate_multi_pitch_tone pitch_list amp_list d sr = Err (RuntimeError SizeMismatch).
Proof.
  intros Hne Hlen Hfrac Hx.
  rewrite generate_multi_pitch_tone_unfold by exact Hlen.
  destruct pitch_list as [|p ps]; [contradiction|].
  destruct amp_list as [|a al]; [discriminate|].
  cbn [map combine].
  assert (H1 : (1 <= Zfloor (py_mul d sr))%Z) by (apply Zfloor_lub; lra).
  rewrite py_int_nonneg by lra. rewrite torch_zeros_nonneg by lia. cbn [bind].
  apply add_sines_mismatch; assumption.
Qed.

(** The repository's own kind of call, [0.3] s at 16000 Hz: the exact product
    of the double [0.3] and 16000 is not whole, the computed one is 4800.0,
    and the tone is returned; so it is for a third of a second at 48000 Hz.
    With [0.7] s at 44100 Hz the computed product is 30869.999999999996 and
    the call raises. The same with the decimal or with its double as the
    argument. *)
Lemma generate_multi_pitch_tone_double_calls (p a : R) :
  (forall z, double_0_3 * 16000 <> IZR z)
  /\ (exists w, generate_multi_pitch_tone [p] [a] 0.3 16000 = Ok w
                /\ Z.of_nat (length w) = 4800%Z)
  /\ (exists w, generate_multi_pitch_tone [p] [a] double_0_3 16000 = Ok w
                /\ Z.of_nat (length w) = 4800%Z)
  /\ (exists w, generate_multi_pitch_tone [p] [a] (1 / 3) 48000 = Ok w
                /\ Z.of_nat (length w) = 16000%Z)
  /\ generate_multi_pitch_tone [p] [a] 0.7 44100 = Err (RuntimeError SizeMismatch)
  /\ generate_multi_pitch_tone [p] [a] double_0_7 44100 = Err (RuntimeError SizeMismatch).
Proof.
  destruct py_mul_0_3_16000 as [H3 D3]. destruct py_mul_0_7_44100 as [H7 D7].
  pose proof py_mul_third_48000 as HT.
  assert (Hv : IZR 30869 < double 8485480987361279 (-38) < IZR 30869 + 1)
    by (unfold double; pow2_literals; lra).
  assert (Hw : forall d sr z, (0 <= z)%Z -> py_mul d sr = IZR z ->
             exists w, generate_multi_pitch_tone [p] [a] d sr = Ok w
                       /\ Z.of_nat (length w) = z).
  { intros d sr z Hz Hd. destruct (generate_single_pitch_whole p a d sr z) as [Hg _];
      [exact Hz | exact Hd |].
    rewrite Hg, make_sine_wave_ok by (rewrite Hd; apply IZR_le; exact Hz).
    eexists. split; [reflexivity|].
    len_simpl. rewrite Hd, Zceil_IZR. apply Z2Nat.id. exact Hz. }
  assert (He : forall d, py_mul d 44100 = double 8485480987361279 (-38) ->
             generate_multi_pitch_tone [p] [a] d 44100 = Err (RuntimeError SizeMismatch)).
  { intros d Hd. apply generate_multi_pitch_tone_mismatch;
      [discriminate | reflexivity | | rewrite Hd; lra].
    rewrite Hd. apply (between_not_int 30869). exact Hv. }
  split; [|split; [|split; [|split; [|split]]]].
  - apply (between_not_int 4799). unfold double_0_3, double. pow2_literals. lra.
  - apply (Hw 0.3 16000 4800%Z); [lia | exact H3].
  - apply (Hw double_0_3 16000 4800%Z); [lia | exact D3].
  - apply (Hw (1 / 3) 48000 16000%Z); [lia | exact HT].
  - apply He. exact H7.
  - apply He. exact D7.
Qed.

(** ** Shepard tone tables *)

Lemma define_amplitude_rows :
  define_amplitude =
  map (fun i => [upper_gain (23 - i); 1; upper_gain i]) (seq 0 24).
Proof.
  cbv [define_amplitude zeros2 repeat seq fold_left set_item get_item list_set nth
       Nat.eqb Nat.sub map upper_gain].
  reflexivity.
Qed.

Lemma define_amplitude_shape :
  length define_amplitude = 24%nat
  /\ Forall (fun row => length row = 3%nat) define_amplitude.
Proof.
  rewrite define_amplitude_rows. split.
  - len_simpl. reflexivity.
  - apply Forall_map, Forall_forall. intros i _. reflexivity.
Qed.

Lemma define_amplitude_upper (i : nat) :
  (i < 24)%nat -> get_item define_amplitude i 2 = exp (-0.388 * INR i).
Proof.
  intros Hi. rewrite define_amplitude_rows. unfold get_item.
  rewrite (nth_map_seq _ 24) by lia. reflexivity.
Qed.

(** C2. In the 24 x 3 table returned by [define_amplitude], for every row
    [i] in [0, 23] the middle entry [amp[i][1]] is 1.0 and the lower entry
    [amp[i][0]] equals the upper entry of the mirrored row, [amp[23 - i][2]]. *)
Theorem define_amplitude_mirror (i : nat) :
  (i < 24)%nat ->
  get_item define_amplitude i 1 = 1
  /\ get_item define_amplitude i 0 = get_item define_amplitude (23 - i) 2.
Proof.
  intros Hi. rewrite define_amplitude_rows. unfold get_item.
  rewrite !(nth_map_seq _ 24) by lia. cbn [nth].
  split; reflexivity.
Qed.

Lemma define_amplitude_mirror_witness :
  get_item define_amplitude 5 1 = 1
  /\ get_item define_amplitude 5 0 = get_item define_amplitude 18 2.
Proof. apply (define_amplitude_mirror 5). lia. Defined.

(** ** Spectrogram *)

(** *** Slices and ranges *)

Lemma py_slice_inside {A} (l : list A) (s e : Z) :
  (0 <= s <= e)%Z -> (e <= Z.of_nat (length l))%Z ->
  py_slice l s e = firstn (Z.to_nat (e - s)) (skipn (Z.to_nat s) l).
Proof.
  intros Hs He. unfold py_slice, slice_bound.
  destruct (Z.ltb_spec s 0); [lia|]. destruct (Z.ltb_spec e 0); [lia|].
  rewrite !Z.min_r, !Z.max_r by lia. reflexivity.
Qed.

Lemma py_slice_length {A} (l : list A) (s e : Z) :
  (0 <= s <= e)%Z -> (e <= Z.of_nat (length l))%Z ->
  length (py_slice l s e) = Z.to_nat (e - s).
Proof.
  intros Hs He. rewrite py_slice_inside by assumption.
  rewrite length_firstn, length_skipn. lia.
Qed.

Lemma py_slice_nth {A} (l : list A) (s e : Z) (n : nat) (d : A) :
  (0 <= s <= e)%Z -> (e <= Z.of_nat (length l))%Z -> (Z.of_nat n < e - s)%Z ->
  nth n (py_slice l s e) d = nth (Z.to_nat s + n) l d.
Proof.
  intros Hs He Hn. rewrite py_slice_inside by assumption.
  rewrite nth_firstn. destruct (Nat.ltb_spec n (Z.to_nat (e - s))); [|lia].
  apply nth_skipn.
Qed.

Lemma py_slice_In {A} (l : list A) (s e : Z) (x : A) :
  In x (py_slice l s e) -> In x l.
Proof.
  unfold py_slice. intros H.
  set (k := Z.to_nat (_ - _)) in H. set (s' := Z.to_nat _) in H.
  rewrite <- (firstn_skipn s' l). apply in_or_app. right.
  rewrite <- (firstn_skipn k (skipn s' l)). apply in_or_app. left. exact H.
Qed.

Lemma py_range_forward (stop step : Z) :
  (0 < step)%Z ->
  py_range 0 stop step =
  Ok (map (fun k => (Z.of_nat k * step)%Z) (seq 0 (Z.to_nat ((stop + step - 1) / step)))).
Proof.
  intros H. unfold py_range.
  destruct (Z.eqb_spec step 0); [lia|]. destruct (Z.ltb_spec 0 step); [|lia].
  rewrite Z.sub_0_r. reflexivity.
Qed.

(** Number of frame starts [0, hop, 2 hop, ...] below [N - n_fft + 1]. *)
Lemma frame_count_full (N n_fft hop : Z) :
  (0 < hop)%Z -> (n_fft <= N)%Z ->
  ((N - n_fft + 1 + hop - 1) / hop = (N - n_fft) / hop + 1)%Z.
Proof.
  intros Hh HN. replace (N - n_fft + 1 + hop - 1)%Z with (N - n_fft + 1 * hop)%Z by lia.
  apply Z.div_add. lia.
Qed.

Lemma frame_count_short (N n_fft hop : Z) :
  (0 < hop)%Z -> (N < n_fft)%Z ->
  Z.to_nat ((N - n_fft + 1 + hop - 1) / hop) = 0%nat.
Proof.
  intros Hh HN.
  assert ((N - n_fft + 1 + hop - 1) / hop < 1)%Z by (apply Z.div_lt_upper_bound; lia).
  lia.
Qed.

(** *** Element-wise operations *)

Lemma zip_with_length f a b :
  length a = length b -> length (zip_with f a b) = length a.
Proof.
  revert b. induction a as [|x a IH]; intros [|y b] H; cbn in *; try discriminate; auto.
Qed.

Lemma zip_with_nth f a b n :
  length a = length b -> (n < length a)%nat ->
  nth n (zip_with f a b) 0 = f (nth n a 0) (nth n b 0).
Proof.
  revert b n. induction a as [|x a IH]; intros [|y b] n H Hn; cbn in *; try lia.
  destruct n as [|n]; [reflexivity|]. apply IH; lia.
Qed.

Lemma broadcast_op_same_length f a b :
  length a = length b -> broadcast_op f a b = Ok (zip_with f a b).
Proof.
  intros H. unfold broadcast_op. rewrite <- H, broadcast_shape_same, expand_same.
  rewrite H, expand_same. reflexivity.
Qed.

(** *** The window *)

Lemma torch_hann_window_length (n : Z) (w : list R) :
  torch_hann_window n = Ok w -> length w = Z.to_nat n.
Proof.
  unfold torch_hann_window. destruct (n <? 0)%Z; [discriminate|].
  destruct (Z.eqb_spec n 1) as [->|_]; intros [= <-]; [reflexivity|].
  rewrite length_map, length_seq. reflexivity.
Qed.

Lemma torch_hann_window_nth (n_fft : Z) (w : list R) (n : nat) :
  torch_hann_window n_fft = Ok w -> (2 <= n_fft)%Z -> (Z.of_nat n < n_fft)%Z ->
  nth n w 0 = hann_periodic n_fft n.
Proof.
  unfold torch_hann_window. intros Hw H2 Hn.
  destruct (Z.ltb_spec n_fft 0); [lia|]. destruct (Z.eqb_spec n_fft 1); [lia|].
  injection Hw as <-. rewrite nth_map_seq by lia. reflexivity.
Qed.

Lemma init_fields (nfft hop : Z) (rate : R) (mels : Z) (p : R) (self : t) :
  init nfft hop rate mels p = Ok self ->
  n_fft self = nfft /\ hop_size self = hop /\ power self = p
  /\ torch_hann_window nfft = Ok (window_tensor self).
Proof.
  unfold init. destruct (torch_hann_window nfft) as [w|e]; cbn [bind]; [|discriminate].
  intros [= <-]. cbn. auto.
Qed.

Lemma init_ok (nfft hop : Z) (rate : R) (mels : Z) (p : R) :
  (0 <= nfft)%Z -> exists self, init nfft hop rate mels p = Ok self.
Proof.
  intros H. unfold init, torch_hann_window. destruct (Z.ltb_spec nfft 0); [lia|].
  destruct (nfft =? 1)%Z; cbn [bind]; eexists; reflexivity.
Qed.

(** *** One frame *)

Section Frame.
Variables (nfft hop : Z) (rate : R) (mels : Z) (p : R) (self : t).
Hypothesis Hinit : init nfft hop rate mels p = Ok self.
Hypothesis Hnfft : (0 < nfft)%Z.
Variable audio : list R.
Variable start_idx : Z.
Hypothesis Hstart : (0 <= start_idx)%Z.
Hypothesis Hend : (start_idx + nfft <= Z.of_nat (length audio))%Z.

Lemma frame_slice_length :
  length (py_slice audio start_idx (start_idx + nfft)) = Z.to_nat nfft.
Proof. rewrite py_slice_length by lia. f_equal. lia. Qed.

Lemma window_length : length (window_tensor self) = Z.to_nat nfft.
Proof.
  destruct (init_fields _ _ _ _ _ _ Hinit) as (_ & _ & _ & Hw).
  apply torch_hann_window_length. exact Hw.
Qed.

Lemma windowed_slice_ok :
  windowed_slice self audio start_idx =
  Ok (zip_with Rmult (py_slice audio start_idx (start_idx + nfft)) (window_tensor self)).
Proof.
  unfold windowed_slice. destruct (init_fields _ _ _ _ _ _ Hinit) as (-> & _).
  apply broadcast_op_same_length. rewrite frame_slice_length, window_length. reflexivity.
Qed.

Lemma spectrogram_slice_ok :
  exists col, spectrogram_slice self audio start_idx = Ok col
              /\ length col = Z.to_nat nfft.
Proof.
  unfold spectrogram_slice. rewrite windowed_slice_ok. cbn [bind].
  set (w := zip_with _ _ _).
  assert (Hw : length w = Z.to_nat nfft).
  { unfold w. rewrite zip_with_length; [apply frame_slice_length|].
    rewrite frame_slice_length, window_length. reflexivity. }
  unfold torch_fft. destruct w as [|x w'] eqn:Ew; [cbn in Hw; lia|].
  cbn [bind]. eexists. split; [reflexivity|].
  rewrite !length_map, length_seq. exact Hw.
Qed.
End Frame.

(** *** All frames *)

Lemma map_result_all_ok {A B} (f : A -> result B) (P : B -> Prop) (xs : list A) :
  (forall x, In x xs -> exists y, f x = Ok y /\ P y) ->
  exists ys, map_result f xs = Ok ys /\ length ys = length xs /\ Forall P ys.
Proof.
  induction xs as [|x xs IH]; intros H.
  - exists []. cbn. auto.
  - destruct (H x (or_introl eq_refl)) as (y & Hy & Py).
    destruct IH as (ys & Hys & Hlen & HP); [intros x' Hx'; apply H; right; exact Hx'|].
    exists (y :: ys). cbn [map_result]. rewrite Hy. cbn [bind]. rewrite Hys. cbn [bind length].
    auto.
Qed.

Lemma map_result_ext {A B} (f g : A -> result B) (xs : list A) :
  (forall x, In x xs -> f x = g x) -> map_result f xs = map_result g xs.
Proof.
  induction xs as [|x xs IH]; intros H; [reflexivity|].
  cbn [map_result]. rewrite (H x (or_introl eq_refl)).
  rewrite IH by (intros x' Hx'; apply H; right; exact Hx'). reflexivity.
Qed.

Lemma torch_stack1_shape (frames : list (list R)) (m : nat) :
  frames <> [] -> Forall (fun f => length f = m) frames ->
  exists stacked, torch_stack1 frames = Ok stacked
    /\ length stacked = m
    /\ Forall (fun row => length row = length frames) stacked.
Proof.
  intros Hne Hall. destruct frames as [|f0 rest]; [contradiction|].
  assert (H0 : length f0 = m) by (inversion Hall; assumption).
  unfold torch_stack1.
  assert (Hb : forallb (fun f => Nat.eqb (length f) (length f0)) (f0 :: rest) = true).
  { apply forallb_forall. intros f Hf. rewrite Forall_forall in Hall.
    rewrite (Hall f Hf), H0. apply Nat.eqb_refl. }
  rewrite Hb. eexists. split; [reflexivity|]. split.
  - rewrite length_map, length_seq. exact H0.
  - apply Forall_map, Forall_forall. intros r _. apply length_map.
Qed.

Lemma get_spectrogram_unfold (self : t) (audio : list R) :
  (0 < hop_size self)%Z ->
  get_spectrogram self (T1 audio) =
  (output <- map_result (spectrogram_slice self audio)
       (map (fun k => (Z.of_nat k * hop_size self)%Z)
            (seq 0 (Z.to_nat ((Z.of_nat (length audio) - n_fft self + 1 + hop_size self - 1)
                               / hop_size self)))) ;;
   stacked <- torch_stack1 output ;;
   Ok (py_slice stacked 0 (n_fft self / 2 + 1))).
Proof.
  intros H. unfold get_spectrogram. cbn [to_mono bind].
  rewrite py_range_forward by exact H. reflexivity.
Qed.

(** C1. For a converter built with [n_fft > 0] and [hop_size > 0] and every
    1-D input of [N >= n_fft] samples, [get_spectrogram] returns a
    spectrogram of exactly [n_fft / 2 + 1] rows (frequency bins), each of
    exactly [(N - n_fft) / hop_size + 1] entries (time frames). The last
    frame ends inside the input, and the samples after it contribute nothing:
    the input cut after the last complete frame has the same spectrogram. *)
Theorem get_spectrogram_shape
    (nfft hop : Z) (rate : R) (mels : Z) (p : R) (self : t) (audio : list R) :
  init nfft hop rate mels p = Ok self ->
  (0 < nfft)%Z -> (0 < hop)%Z ->
  (nfft <= Z.of_nat (length audio))%Z ->
  let N := Z.of_nat (length audio) in
  exists spec,
    get_spectrogram self (T1 audio) = Ok spec
    /\ Z.of_nat (length spec) = (nfft / 2 + 1)%Z
    /\ Forall (fun row => Z.of_nat (length row) = ((N - nfft) / hop + 1)%Z) spec
    /\ (((N - nfft) / hop) * hop + nfft <= N)%Z
    /\ get_spectrogram self
         (T1 (firstn (Z.to_nat (((N - nfft) / hop) * hop + nfft)) audio)) = Ok spec.
Proof.
  intros Hinit Hn Hh HN N.
  destruct (init_fields _ _ _ _ _ _ Hinit) as (En & Eh & _ & _).
  set (F := ((N - nfft) / hop)%Z).
  assert (HF : (0 <= F)%Z) by (apply Z.div_pos; lia).
  assert (Hlast : (F * hop + nfft <= N)%Z).
  { pose proof (Z.mul_div_le (N - nfft) hop Hh). unfold F. lia. }
  (* the frames of the full input *)
  assert (Hstarts : forall s, In s (map (fun k => (Z.of_nat k * hop)%Z)
                                        (seq 0 (Z.to_nat (F + 1)))) ->
                              (0 <= s)%Z /\ (s + nfft <= F * hop + nfft)%Z).
  { intros s Hs. apply in_map_iff in Hs as (k & <- & Hk). apply in_seq in Hk.
    split; [lia|]. apply Z.add_le_mono_r, Z.mul_le_mono_nonneg_r; lia. }
  destruct (map_result_all_ok (spectrogram_slice self audio)
              (fun col => length col = Z.to_nat nfft)
              (map (fun k => (Z.of_nat k * hop)%Z) (seq 0 (Z.to_nat (F + 1)))))
    as (output & Hout & Hlen & Hcols).
  { intros s Hs. destruct (Hstarts s Hs) as [H0 H1].
    apply (spectrogram_slice_ok nfft hop rate mels p self Hinit Hn audio s H0). lia. }
  rewrite length_map, length_seq in Hlen.
  destruct (torch_stack1_shape output (Z.to_nat nfft)) as (stacked & Hst & Hrows & Hrow).
  { intros ->. cbn in Hlen. lia. }
  { exact Hcols. }
  exists (py_slice stacked 0 (nfft / 2 + 1)).
  assert (Hhalf : (0 <= nfft / 2 + 1 <= nfft)%Z).
  { split; [apply Z.add_nonneg_nonneg; [apply Z.div_pos|]; lia|].
    destruct (Z.eq_dec nfft 1) as [->|Hne]; [reflexivity|].
    assert (nfft / 2 < nfft)%Z by (apply Z.div_lt; lia). lia. }
  assert (Hfull : get_spectrogram self (T1 audio) = Ok (py_slice stacked 0 (nfft / 2 + 1))).
  { rewrite get_spectrogram_unfold by lia. rewrite En, Eh.
    fold N. rewrite frame_count_full by assumption. fold F.
    rewrite Hout. cbn [bind]. rewrite Hst. reflexivity. }
  split; [exact Hfull|]. split; [|split; [|split]].
  - rewrite py_slice_length by lia. lia.
  - apply Forall_forall. intros row Hrow'. apply py_slice_In in Hrow'.
    rewrite Forall_forall in Hrow. rewrite (Hrow row Hrow'), Hlen. lia.
  - exact Hlast.
  - set (audio' := firstn _ audio).
    assert (HN' : Z.of_nat (length audio') = (F * hop + nfft)%Z).
    { unfold audio'. rewrite length_firstn. fold N in HN. lia. }
    rewrite get_spectrogram_unfold by lia. rewrite En, Eh, HN'.
    rewrite frame_count_full by lia.
    replace (F * hop + nfft - nfft)%Z with (F * hop)%Z by lia.
    rewrite Z.div_mul by lia.
    rewrite (map_result_ext _ (spectrogram_slice self audio)).
    + rewrite Hout. cbn [bind]. rewrite Hst. reflexivity.
    + intros s Hs. destruct (Hstarts s Hs) as [H0 H1].
      unfold spectrogram_slice, windowed_slice. rewrite En.
      replace (py_slice audio' s (s + nfft)) with (py_slice audio s (s + nfft)); [reflexivity|].
      rewrite !py_slice_inside by lia. unfold audio'.
      rewrite skipn_firstn_comm. rewrite firstn_firstn. f_equal. lia.
Qed.

Lemma get_spectrogram_shape_witness :
  exists self spec,
    init 4 2 16000 128 2 = Ok self
    /\ get_spectrogram self (T1 [1; 2; 3; 4; 5; 6; 7]) = Ok spec
    /\ Z.of_nat (length spec) = 3%Z
    /\ Forall (fun row => Z.of_nat (length row) = 2%Z) spec.
Proof.
  destruct (init_ok 4 2 16000 128 2) as [self Hself]; [lia|].
  destruct (get_spectrogram_shape 4 2 16000 128 2 self [1; 2; 3; 4; 5; 6; 7] Hself)
    as (spec & Hspec & Hrows & Hcols & _); [lia | lia | cbn; lia |].
  exists self, spec. auto.
Defined.

(** C9. With [hop_size > 0], for every 1-D input of fewer than [n_fft]
    samples [get_spectrogram] raises: the list of frames is empty and
    [torch.stack] refuses it; no spectrogram of zero frames is returned. *)
Theorem get_spectrogram_short_input (self : t) (audio : list R) :
  (0 < hop_size self)%Z ->
  (Z.of_nat (length audio) < n_fft self)%Z ->
  get_spectrogram self (T1 audio) = Err (RuntimeError EmptyStack).
Proof.
  intros Hh HN. rewrite get_spectrogram_unfold by exact Hh.
  rewrite frame_count_short by assumption. reflexivity.
Qed.

Lemma get_spectrogram_short_input_witness :
  get_spectrogram (mk 4 2 16000 128 [0; 0.5; 1; 0.5] 2) (T1 [1; 2; 3])
  = Err (RuntimeError EmptyStack).
Proof. apply get_spectrogram_short_input; cbn; lia. Defined.

(** *** Values of the spectrogram *)

Lemma windowed_slice_hann
    (nfft hop : Z) (rate : R) (mels : Z) (p : R) (self : t) (audio : list R) (c : nat) :
  init nfft hop rate mels p = Ok self ->
  (2 <= nfft)%Z -> (0 <= hop)%Z ->
  (Z.of_nat c * hop + nfft <= Z.of_nat (length audio))%Z ->
  windowed_slice self audio (Z.of_nat c * hop) = Ok (windowed_frame nfft hop audio c).
Proof.
  intros Hinit Hn Hh Hend.
  assert (H0 : (0 <= Z.of_nat c * hop)%Z) by (apply Z.mul_nonneg_nonneg; lia).
  rewrite (windowed_slice_ok nfft hop rate mels p self Hinit) by lia.
  f_equal.
  assert (Hs : length (py_slice audio (Z.of_nat c * hop) (Z.of_nat c * hop + nfft))
               = Z.to_nat nfft) by (apply frame_slice_length; lia).
  pose proof (window_length nfft hop rate mels p self Hinit) as Hw.
  destruct (init_fields _ _ _ _ _ _ Hinit) as (_ & _ & _ & Hwin).
  apply (nth_ext _ _ 0 0).
  - rewrite zip_with_length by lia. unfold windowed_frame.
    rewrite length_map, length_seq. exact Hs.
  - intros n Hlt. rewrite zip_with_length in Hlt by lia.
    rewrite zip_with_nth by lia. unfold windowed_frame.
    rewrite nth_map_seq by lia.
    rewrite py_slice_nth by lia.
    rewrite (torch_hann_window_nth nfft _ n Hwin) by lia. reflexivity.
Qed.

Lemma map_result_map_total {A B C} (f : A -> result B) (h : C -> A) (g : C -> B)
    (xs : list C) :
  (forall c, In c xs -> f (h c) = Ok (g c)) ->
  map_result f (map h xs) = Ok (map g xs).
Proof.
  induction xs as [|x xs IH]; intros H; [reflexivity|].
  cbn [map_result map]. rewrite (H x (or_introl eq_refl)). cbn [bind].
  rewrite IH by (intros x' Hx'; apply H; right; exact Hx'). reflexivity.
Qed.

Lemma torch_fft_nonempty (x : list R) :
  x <> [] -> torch_fft x = Ok (map (dft_bin x) (seq 0 (length x))).
Proof. destruct x; [contradiction|reflexivity]. Qed.

Lemma torch_stack1_value (frames : list (list R)) (m : nat) :
  frames <> [] -> Forall (fun f => length f = m) frames ->
  torch_stack1 frames = Ok (map (fun r => map (fun f => nth r f 0) frames) (seq 0 m)).
Proof.
  intros Hne Hall. destruct frames as [|f0 rest]; [contradiction|].
  assert (H0 : length f0 = m) by (inversion Hall; assumption).
  unfold torch_stack1.
  assert (Hb : forallb (fun f => Nat.eqb (length f) (length f0)) (f0 :: rest) = true).
  { apply forallb_forall. intros f Hf. rewrite Forall_forall in Hall.
    rewrite (Hall f Hf), H0. apply Nat.eqb_refl. }
  rewrite Hb, H0. reflexivity.
Qed.

Lemma spectrogram_slice_hann
    (nfft hop : Z) (rate : R) (mels : Z) (p : R) (self : t) (audio : list R) (c : nat) :
  init nfft hop rate mels p = Ok self ->
  (2 <= nfft)%Z -> (0 <= hop)%Z ->
  (Z.of_nat c * hop + nfft <= Z.of_nat (length audio))%Z ->
  spectrogram_slice self audio (Z.of_nat c * hop) = Ok (frame_column nfft hop p audio c).
Proof.
  intros Hinit Hn Hh Hend. unfold spectrogram_slice.
  rewrite (windowed_slice_hann nfft hop rate mels p) by assumption. cbn [bind].
  assert (Hlen : length (windowed_frame nfft hop audio c) = Z.to_nat nfft)
    by (unfold windowed_frame; rewrite length_map, length_seq; reflexivity).
  rewrite torch_fft_nonempty by (intros E; rewrite E in Hlen; cbn in Hlen; lia).
  cbn [bind]. destruct (init_fields _ _ _ _ _ _ Hinit) as (_ & _ & -> & _).
  rewrite !map_map, Hlen. reflexivity.
Qed.

(** C6, amended. For a converter built with [n_fft >= 2], the window has
    [n_fft] points and its value at index [n] is
    [0.5 * (1 - cos (2 * PI * n / n_fft))], the periodic Hann window; every
    frame of [get_spectrogram] is the input slice times that window, and the
    spectrogram entry at bin [k] and frame [c] is the magnitude of the DFT
    of that windowed frame raised to [power]. *)
Theorem get_spectrogram_window
    (nfft hop : Z) (rate : R) (mels : Z) (p : R) (self : t) (audio : list R) :
  init nfft hop rate mels p = Ok self ->
  (2 <= nfft)%Z -> (0 < hop)%Z ->
  (nfft <= Z.of_nat (length audio))%Z ->
  let N := Z.of_nat (length audio) in
  length (window_tensor self) = Z.to_nat nfft
  /\ (forall n, (Z.of_nat n < nfft)%Z ->
        nth n (window_tensor self) 0 = 0.5 * (1 - cos (2 * PI * INR n / IZR nfft)))
  /\ (forall c, (Z.of_nat c <= (N - nfft) / hop)%Z ->
        windowed_slice self audio (Z.of_nat c * hop) = Ok (windowed_frame nfft hop audio c))
  /\ exists spec,
       get_spectrogram self (T1 audio) = Ok spec
       /\ forall k c, (Z.of_nat k <= nfft / 2)%Z -> (Z.of_nat c <= (N - nfft) / hop)%Z ->
            get_item spec k c
            = pow_nonneg (complex_abs (dft_bin (windowed_frame nfft hop audio c) k)) p.
Proof.
  intros Hinit Hn Hh HN N.
  destruct (init_fields _ _ _ _ _ _ Hinit) as (En & Eh & _ & Hwin).
  set (F := ((N - nfft) / hop)%Z).
  assert (HF : (0 <= F)%Z) by (apply Z.div_pos; lia).
  assert (Hlast : forall c, (Z.of_nat c <= F)%Z -> (Z.of_nat c * hop + nfft <= N)%Z).
  { intros c Hc. pose proof (Z.mul_div_le (N - nfft) hop Hh).
    assert (Z.of_nat c * hop <= F * hop)%Z by (apply Z.mul_le_mono_nonneg_r; lia).
    unfold F in *. lia. }
  assert (Hhalf : (nfft / 2 < nfft)%Z) by (apply Z.div_lt; lia).
  assert (Hhalf0 : (0 <= nfft / 2)%Z) by (apply Z.div_pos; lia).
  split; [apply (window_length nfft hop rate mels p self Hinit)|].
  split; [intros n Hlt; apply (torch_hann_window_nth nfft _ n Hwin); lia|].
  split; [intros c Hc; apply (windowed_slice_hann nfft hop rate mels p); auto; lia|].
  eexists. split.
  - rewrite get_spectrogram_unfold by lia. rewrite En, Eh. fold N.
    rewrite frame_count_full by assumption. fold F.
    rewrite (map_result_map_total _ _ (frame_column nfft hop p audio)).
    + cbn [bind]. rewrite (torch_stack1_value _ (Z.to_nat nfft)).
      * cbn [bind]. reflexivity.
      * intros E. apply (f_equal (@length _)) in E.
        rewrite length_map, length_seq in E. cbn in E. lia.
      * apply Forall_map, Forall_forall. intros c _. unfold frame_column.
        rewrite length_map, length_seq. reflexivity.
    + intros c Hc. apply in_seq in Hc.
      apply (spectrogram_slice_hann nfft hop rate mels p); try assumption; try lia.
      apply Hlast. lia.
  - intros k c Hk Hc. unfold get_item.
    rewrite py_slice_nth; [| lia | rewrite length_map, length_seq; lia | lia].
    cbn [Z.to_nat Nat.add].
    rewrite nth_map_seq by lia. rewrite map_map.
    rewrite nth_map_seq by lia. unfold frame_column.
    rewrite nth_map_seq by lia. reflexivity.
Qed.

Lemma get_spectrogram_window_witness :
  exists self, init 4 2 16000 128 2 = Ok self
    /\ nth 1 (window_tensor self) 0 = 0.5 * (1 - cos (2 * PI * INR 1 / 4)).
Proof.
  destruct (init_ok 4 2 16000 128 2) as [self Hself]; [lia|].
  exists self. split; [exact Hself|].
  destruct (get_spectrogram_window 4 2 16000 128 2 self [1; 2; 3; 4; 5; 6] Hself)
    as (_ & Hw & _); [lia | lia | cbn; lia |].
  apply Hw. lia.
Defined.

Lemma cos_two_pi_over (a b : R) :
  2 <= a -> 2 <= b -> a <> b -> cos (2 * PI * 1 / a) <> cos (2 * PI * 1 / b).
Proof.
  intros Ha Hb Hab Hcos. pose proof PI_RGT_0 as Hpi.
  assert (Hrange : forall x, 2 <= x -> 0 <= 2 * PI * 1 / x <= PI).
  { intros x Hx. split.
    - apply Rmult_le_pos; [lra|]. apply Rlt_le, Rinv_0_lt_compat. lra.
    - apply (Rmult_le_reg_r x); [lra|]. unfold Rdiv. rewrite Rmult_assoc, Rinv_l by lra. nra. }
  apply cos_inj in Hcos; [|apply Hrange; assumption..].
  apply Hab. apply (f_equal (fun x => / (x / (2 * PI)))) in Hcos.
  assert (Hx : forall x, 2 <= x -> / (2 * PI * 1 / x / (2 * PI)) = x)
    by (intros x Hx; field; lra).
  rewrite !Hx in Hcos by assumption. exact Hcos.
Qed.

(** C6 as stated fails: with [n_fft = 1024] the window at index 1 is
    [0.5 * (1 - cos (2 * PI / 1024))], not [0.5 * (1 - cos (2 * PI / 1023))]. *)
Lemma hann_window_not_symmetric :
  exists self, init 1024 512 16000 128 2 = Ok self
    /\ nth 1 (window_tensor self) 0 <> 0.5 * (1 - cos (2 * PI * 1 / (1024 - 1))).
Proof.
  eexists. split; [reflexivity|]. cbn [window_tensor].
  rewrite nth_map_seq by lia. cbn [INR].
  intros H. apply (cos_two_pi_over 1024 (1024 - 1)); lra.
Qed.

(** ** Scale conversions *)

Lemma tensor_map_elems f x : tensor_elems (tensor_map f x) = map f (tensor_elems x).
Proof.
  destruct x as [v|l|rows]; cbn [tensor_map tensor_elems]; try reflexivity.
  symmetry. apply concat_map.
Qed.

Lemma tensor_map_shape f x : shape (tensor_map f x) = shape x.
Proof.
  destruct x as [v|l|rows]; cbn [tensor_map shape]; try reflexivity.
  - rewrite length_map. reflexivity.
  - rewrite length_map. destruct rows; cbn; [reflexivity|]. rewrite length_map. reflexivity.
Qed.

Lemma ln_10_pos : 0 < ln 10.
Proof. rewrite <- ln_1. apply ln_increasing; lra. Qed.

Lemma log10_le (x y : R) : 0 < x -> x <= y -> log10 x <= log10 y.
Proof.
  intros Hx Hxy. unfold log10. apply Rmult_le_compat_r.
  - apply Rlt_le, Rinv_0_lt_compat, ln_10_pos.
  - destruct Hxy as [Hlt| ->]; [apply Rlt_le, ln_increasing; assumption | apply Rle_refl].
Qed.

Lemma log10_default_eps : log10 default_eps = -10.
Proof.
  unfold log10, default_eps.
  replace 1e-10 with (/ 10 ^ 10) by lra.
  rewrite ln_Rinv by (apply pow_lt; lra).
  rewrite ln_pow by lra. pose proof ln_10_pos. cbn [INR]. field. lra.
Qed.

(** C5. [hz_to_mel] keeps the shape of its input and maps every value
    [hz] to [2595 * log10 (1 + hz / 700)]. *)
Theorem hz_to_mel_formula (hz : tensor) :
  shape (hz_to_mel hz) = shape hz
  /\ tensor_elems (hz_to_mel hz)
     = map (fun h => 2595 * log10 (1 + h / 700)) (tensor_elems hz).
Proof.
  unfold hz_to_mel. split; [apply tensor_map_shape | apply tensor_map_elems].
Qed.

(** C3. For every tensor and every floor [eps > 0], [amplitude_to_db] keeps
    the shape and maps every value [v] to [10 * log10 (max v eps)]; the
    argument of the logarithm is positive and every output is at least
    [10 * log10 eps], so none is minus infinity. With the default floor
    1e-10 a zero input maps to -100 and every output is at least -100. *)
Theorem amplitude_to_db_formula (spectrogram : tensor) (eps : R) :
  0 < eps ->
  shape (amplitude_to_db spectrogram eps) = shape spectrogram
  /\ tensor_elems (amplitude_to_db spectrogram eps)
     = map (fun v => 10 * log10 (Rmax v eps)) (tensor_elems spectrogram)
  /\ Forall (fun v => 0 < Rmax v eps) (tensor_elems spectrogram)
  /\ Forall (fun db => 10 * log10 eps <= db) (tensor_elems (amplitude_to_db spectrogram eps))
  /\ amplitude_to_db (T0 0) default_eps = T0 (-100)
  /\ Forall (fun db => -100 <= db) (tensor_elems (amplitude_to_db spectrogram default_eps)).
Proof.
  intros Heps.
  assert (Hfloor : forall e x, 0 < e ->
            Forall (fun db => 10 * log10 e <= db) (tensor_elems (amplitude_to_db x e))).
  { intros e x He. unfold amplitude_to_db. rewrite tensor_map_elems.
    apply Forall_map, Forall_forall. intros v _.
    apply Rmult_le_compat_l; [lra|]. apply log10_le; [exact He | apply Rmax_r]. }
  assert (He0 : 0 < default_eps) by (unfold default_eps; lra).
  split; [apply tensor_map_shape|].
  split; [apply tensor_map_elems|].
  split; [apply Forall_forall; intros v _;
          apply Rlt_le_trans with eps; [exact Heps | apply Rmax_r]|].
  split; [apply Hfloor; exact Heps|].
  split.
  - unfold amplitude_to_db. cbn [tensor_map]. f_equal.
    rewrite Rmax_right by lra. rewrite log10_default_eps. lra.
  - specialize (Hfloor default_eps spectrogram He0).
    rewrite log10_default_eps in Hfloor.
    replace (10 * -10) with (-100) in Hfloor by lra. exact Hfloor.
Qed.

Lemma amplitude_to_db_formula_witness :
  tensor_elems (amplitude_to_db (T1 [0; 1]) 1)
  = [10 * log10 (Rmax 0 1); 10 * log10 (Rmax 1 1)].
Proof.
  destruct (amplitude_to_db_formula (T1 [0; 1]) 1) as (_ & H & _); [lra|]. exact H.
Defined.

(** * Further properties *)

(** ** Pitch conversion *)

Lemma midi_pitch_to_hz_pos (p : R) : 0 < midi_pitch_to_hz p.
Proof.
  unfold midi_pitch_to_hz, Rpower. apply Rmult_lt_0_compat; [lra | apply exp_pos].
Qed.

Lemma hz_to_midi_pitch_pos (f : R) :
  0 < f -> hz_to_midi_pitch f = Ok (ln (f / 440) / ln 2 * 12 + 69).
Proof.
  intros Hf. unfold hz_to_midi_pitch, math_log.
  destruct (Rle_dec (f / 440) 0) as [H|_]; [|reflexivity].
  exfalso. assert (0 < f / 440) by (apply Rdiv_lt_0_compat; lra). lra.
Qed.

(** X1. For every frequency [f > 0], [hz_to_midi_pitch f] returns a pitch that
    [midi_pitch_to_hz] maps back to [f]; for [f <= 0] it raises the math
    domain error of [math.log]. *)
Theorem hz_midi_round_trip (f : R) :
  (0 < f -> exists m, hz_to_midi_pitch f = Ok m /\ midi_pitch_to_hz m = f)
  /\ (f <= 0 -> hz_to_midi_pitch f = Err ValueError).
Proof.
  pose proof ln_2_pos as H2. split.
  - intros Hf. eexists. split; [apply hz_to_midi_pitch_pos; exact Hf|].
    unfold midi_pitch_to_hz, Rpower.
    replace ((ln (f / 440) / ln 2 * 12 + 69 - 69) / 12 * ln 2) with (ln (f / 440))
      by (field; lra).
    rewrite exp_ln by (apply Rdiv_lt_0_compat; lra). field.
  - intros Hf. unfold hz_to_midi_pitch, math_log.
    destruct (Rle_dec (f / 440) 0) as [_|H]; [reflexivity|].
    exfalso. apply H. unfold Rdiv.
    replace 0 with (0 * / 440) by ring. apply Rmult_le_compat_r; lra.
Qed.

Lemma hz_midi_round_trip_witness :
  exists m, hz_to_midi_pitch 880 = Ok m /\ midi_pitch_to_hz m = 880.
Proof. apply (hz_midi_round_trip 880). lra. Defined.

(** X2. For every MIDI pitch [p], converting to Hz and back returns [p]. *)
Theorem midi_hz_round_trip (p : R) :
  hz_to_midi_pitch (midi_pitch_to_hz p) = Ok p.
Proof.
  pose proof ln_2_pos as H2.
  rewrite hz_to_midi_pitch_pos by apply midi_pitch_to_hz_pos. f_equal.
  unfold midi_pitch_to_hz, Rpower.
  replace (440 * exp ((p - 69) / 12 * ln 2) / 440) with (exp ((p - 69) / 12 * ln 2))
    by (field; lra).
  rewrite ln_exp. field. lra.
Qed.

Lemma midi_pitch_to_hz_add (p k : R) :
  midi_pitch_to_hz (p + k) = Rpower 2 (k / 12) * midi_pitch_to_hz p.
Proof.
  unfold midi_pitch_to_hz.
  replace ((p + k - 69) / 12) with (k / 12 + (p - 69) / 12) by (field; lra).
  rewrite Rpower_plus. ring.
Qed.

Lemma midi_pitch_to_hz_lt (p q : R) :
  p < q -> midi_pitch_to_hz p < midi_pitch_to_hz q.
Proof.
  intros H. unfold midi_pitch_to_hz. apply Rmult_lt_compat_l; [lra|].
  apply Rpower_lt; lra.
Qed.

(** X3. [midi_pitch_to_hz] doubles the frequency every 12 semitones, is
    strictly increasing and is positive. *)
Theorem midi_pitch_to_hz_octave (p q : R) :
  midi_pitch_to_hz (p + 12) = 2 * midi_pitch_to_hz p
  /\ (p < q -> midi_pitch_to_hz p < midi_pitch_to_hz q)
  /\ 0 < midi_pitch_to_hz p.
Proof.
  split; [|split; [apply midi_pitch_to_hz_lt | apply midi_pitch_to_hz_pos]].
  rewrite midi_pitch_to_hz_add.
  replace (12 / 12) with 1 by field. rewrite Rpower_1 by lra. reflexivity.
Qed.

Lemma midi_pitch_to_hz_octave_witness :
  midi_pitch_to_hz 60 < midi_pitch_to_hz 64.
Proof. apply (midi_pitch_to_hz_octave 60 64). lra. Defined.

(** ** Scales and triads *)

(** X4. [make_major_scale_hz_sequence p] has 8 frequencies, starts at the
    frequency of [p], ends exactly one octave (a factor of 2) above it and is
    strictly increasing. *)
Theorem make_major_scale_octave (p : R) :
  length (make_major_scale_hz_sequence p) = 8%nat
  /\ nth 0 (make_major_scale_hz_sequence p) 0 = midi_pitch_to_hz p
  /\ nth 7 (make_major_scale_hz_sequence p) 0 = 2 * midi_pitch_to_hz p
  /\ increasing (make_major_scale_hz_sequence p).
Proof.
  split; [reflexivity|]. split; [reflexivity|]. split.
  - cbn [make_major_scale_hz_sequence map nth]. apply midi_pitch_to_hz_octave. exact p.
  - cbn [make_major_scale_hz_sequence map increasing].
    repeat split; apply midi_pitch_to_hz_lt; lra.
Qed.

Lemma hz_to_midi_pitch_scaled (p k : R) :
  0 < k -> hz_to_midi_pitch (midi_pitch_to_hz p * k) = Ok (p + 12 * log2 k).
Proof.
  intros Hk. pose proof ln_2_pos as H2. pose proof (midi_pitch_to_hz_pos p) as Hf.
  rewrite hz_to_midi_pitch_pos by (apply Rmult_lt_0_compat; assumption). f_equal.
  replace (midi_pitch_to_hz p * k / 440) with (midi_pitch_to_hz p / 440 * k) by (field; lra).
  rewrite ln_mult by (try apply Rdiv_lt_0_compat; lra).
  unfold midi_pitch_to_hz, Rpower, log2.
  replace (440 * exp ((p - 69) / 12 * ln 2) / 440) with (exp ((p - 69) / 12 * ln 2))
    by (field; lra).
  rewrite ln_exp. field. lra.
Qed.

(** X5. The just-intonation triad of root [p] is
    [p, p + 12 log2 (5/4), p + 12 log2 (3/2)]: the root comes back unchanged
    and the two intervals do not depend on it; the just major third is
    narrower than 4 semitones and the just fifth wider than 7. *)
Theorem just_intonation_triad_intervals (p : R) :
  make_just_intonation_triad_in_midi_pitch p
  = Ok [p; p + 12 * log2 (5 / 4); p + 12 * log2 (3 / 2)]
  /\ 12 * log2 (5 / 4) < 4
  /\ 7 < 12 * log2 (3 / 2).
Proof.
  pose proof ln_2_pos as H2.
  split; [|split].
  - unfold make_just_intonation_triad_in_midi_pitch. cbn [map_result].
    rewrite midi_hz_round_trip. cbn [bind].
    replace (midi_pitch_to_hz p / 4 * 5) with (midi_pitch_to_hz p * (5 / 4)) by field.
    replace (midi_pitch_to_hz p / 2 * 3) with (midi_pitch_to_hz p * (3 / 2)) by field.
    rewrite !hz_to_midi_pitch_scaled by lra. reflexivity.
  - unfold log2.
    assert (H : 3 * ln (5 / 4) < ln 2).
    { replace 3 with (INR 3) by (cbn; lra). rewrite <- ln_pow by lra.
      apply ln_increasing; [apply pow_lt|]; lra. }
    apply (Rmult_lt_reg_r (ln 2)); [exact H2|].
    replace (12 * (ln (5 / 4) / ln 2) * ln 2) with (4 * (3 * ln (5 / 4))) by (field; lra).
    lra.
  - unfold log2.
    assert (H : 7 * ln 2 < 12 * ln (3 / 2)).
    { replace 7 with (INR 7) by (cbn; lra). replace 12 with (INR 12) by (cbn; lra).
      rewrite <- !ln_pow by lra.
      apply ln_increasing; [apply pow_lt|]; lra. }
    apply (Rmult_lt_reg_r (ln 2)); [exact H2|].
    replace (12 * (ln (3 / 2) / ln 2) * ln 2) with (12 * ln (3 / 2)) by (field; lra).
    lra.
Qed.

(** ** Mixed tones *)

Lemma zip_with_map_seq (f : R -> R -> R) (g h : nat -> R) (a k : nat) :
  zip_with f (map g (seq a k)) (map h (seq a k)) = map (fun n => f (g n) (h n)) (seq a k).
Proof.
  revert a. induction k as [|k IH]; intros a; [reflexivity|].
  cbn [seq map zip_with]. rewrite IH. reflexivity.
Qed.

Lemma repeat_map_seq (x : R) (a k : nat) : repeat x k = map (fun _ => x) (seq a k).
Proof.
  revert a. induction k as [|k IH]; intros a; [reflexivity|].
  cbn [repeat seq map]. rewrite <- IH. reflexivity.
Qed.

Lemma add_sines_whole (d sr : R) (z : Z) (partials : list (R * R)) (g : nat -> R) :
  (0 <= z)%Z -> py_mul d sr = IZR z ->
  add_sines d sr (map g (seq 0 (Z.to_nat z))) partials
  = Ok (map (fun n => g n + mix_sample partials sr n) (seq 0 (Z.to_nat z))).
Proof.
  intros Hz Hx.
  assert (H0 : 0 <= py_mul d sr) by (rewrite Hx; apply IZR_le; exact Hz).
  unfold add_sines. revert g.
  induction partials as [|[f a] rest IH]; intros g; cbn [for_each].
  - f_equal. apply map_ext. intros n. unfold mix_sample. cbn. ring.
  - rewrite make_sine_wave_ok by exact H0. rewrite Hx, Zceil_IZR. cbn [bind].
    rewrite iadd_same_length by (rewrite !length_map; reflexivity).
    cbn [bind]. rewrite zip_with_map_seq. rewrite IH. f_equal.
    apply map_ext. intros n. unfold mix_sample, sine_sample, sum_list.
    cbn [map fold_right fst snd]. ring.
Qed.

Lemma generate_multi_pitch_tone_whole_value
    (pitch_list amp_list : list R) (d sr : R) (z : Z) :
  length pitch_list = length amp_list ->
  (0 <= z)%Z -> py_mul d sr = IZR z ->
  generate_multi_pitch_tone pitch_list amp_list d sr
  = Ok (map (fun n => 0 + mix_sample (combine (map midi_pitch_to_hz pitch_list) amp_list) sr n)
            (seq 0 (Z.to_nat z))).
Proof.
  intros Hlen Hz Hx.
  assert (H0 : 0 <= py_mul d sr) by (rewrite Hx; apply IZR_le; exact Hz).
  rewrite generate_multi_pitch_tone_unfold by exact Hlen.
  rewrite py_int_nonneg by exact H0. rewrite Hx, ZfloorZ.
  rewrite torch_zeros_nonneg by exact Hz. cbn [bind].
  rewrite (repeat_map_seq 0 0). apply add_sines_whole; assumption.
Qed.

(** X6. With lists of equal length, when the product [d * sr] as the machine
    computes it (rounded to a double) is a whole number [z >= 0],
    [generate_multi_pitch_tone] returns a waveform of exactly [z] samples
    whose [n]-th sample is the sum over the partials of
    [a * sin (2 * PI * midi_pitch_to_hz p * n / sr)]. *)
Theorem generate_multi_pitch_tone_whole
    (pitch_list amp_list : list R) (d sr : R) (z : Z) :
  length pitch_list = length amp_list ->
  (0 <= z)%Z -> py_mul d sr = IZR z ->
  exists w,
    generate_multi_pitch_tone pitch_list amp_list d sr = Ok w
    /\ Z.of_nat (length w) = z
    /\ forall n, (n < length w)%nat ->
         nth n w 0
         = sum_list (map (fun '(p, a) => a * sin (2 * PI * midi_pitch_to_hz p * INR n / sr))
                         (combine pitch_list amp_list)).
Proof.
  intros Hlen Hz Hx.
  rewrite (generate_multi_pitch_tone_whole_value _ _ d sr z) by assumption.
  eexists. split; [reflexivity|]. rewrite length_map, length_seq.
  split; [lia|]. intros n Hn. rewrite nth_map_seq by exact Hn.
  rewrite Rplus_0_l. unfold mix_sample. f_equal.
  clear. revert amp_list. induction pitch_list as [|p ps IH]; intros [|a al]; try reflexivity.
  cbn [map combine]. rewrite IH. f_equal. unfold sine_sample. cbn [fst snd].
  f_equal. f_equal. unfold Rdiv. ring.
Qed.

Lemma generate_multi_pitch_tone_whole_witness :
  (exists w, generate_multi_pitch_tone [60; 64; 67] [1; 1; 1] 3 16000 = Ok w
             /\ Z.of_nat (length w) = 48000%Z)
  /\ (exists w, generate_multi_pitch_tone [60; 64; 67] [1; 1; 1] 0.3 16000 = Ok w
                /\ Z.of_nat (length w) = 4800%Z).
Proof.
  split.
  - destruct (generate_multi_pitch_tone_whole [60; 64; 67] [1; 1; 1] 3 16000 48000)
      as (w & Hw & Hl & _);
      [reflexivity | lia | exact py_mul_3_16000 |].
    exists w. auto.
  - destruct (generate_multi_pitch_tone_whole [60; 64; 67] [1; 1; 1] 0.3 16000 4800)
      as (w & Hw & Hl & _);
      [reflexivity | lia | exact (proj1 py_mul_0_3_16000) |].
    exists w. auto.
Defined.

(** *** A bound on every sample *)

Lemma zip_with_plus_bound (a b : list R) (A B : R) :
  Forall (fun x => Rabs x <= A) a -> Forall (fun y => Rabs y <= B) b ->
  Forall (fun s => Rabs s <= A + B) (zip_with Rplus a b).
Proof.
  intros Ha. revert b. induction Ha as [|x a Hx Ha IH]; intros b Hb; [constructor|].
  destruct Hb as [|y b Hy Hb]; [constructor|]. cbn [zip_with]. constructor.
  - eapply Rle_trans; [apply Rabs_triang|]. lra.
  - apply IH. exact Hb.
Qed.

Lemma expand_bound (n : nat) (b : list R) (B : R) :
  0 <= B -> Forall (fun y => Rabs y <= B) b -> Forall (fun y => Rabs y <= B) (expand n b).
Proof.
  intros HB Hb. unfold expand. destruct (Nat.eqb _ _); [exact Hb|].
  apply Forall_forall. intros y Hy. apply repeat_spec in Hy. subst y.
  destruct Hb as [|y0 b Hy0 _]; cbn [hd]; [rewrite Rabs_R0; exact HB | exact Hy0].
Qed.

Lemma iadd_bound (a b w : list R) (A B : R) :
  0 <= B ->
  Forall (fun x => Rabs x <= A) a -> Forall (fun y => Rabs y <= B) b ->
  iadd a b = Ok w -> Forall (fun s => Rabs s <= A + B) w.
Proof.
  intros HB Ha Hb. unfold iadd.
  destruct (broadcast_shape _ _) as [n|]; [|discriminate].
  destruct (Nat.eqb _ _); [|discriminate]. intros [= <-].
  apply zip_with_plus_bound; [exact Ha | apply expand_bound; assumption].
Qed.

Lemma make_sine_wave_bound (f a d sr : R) (w : list R) :
  make_sine_wave f a d sr = Ok w -> Forall (fun y => Rabs y <= Rabs a) w.
Proof.
  unfold make_sine_wave. destruct (torch_arange _) as [tf|e]; cbn [bind]; [|discriminate].
  intros [= <-]. rewrite map_map. apply Forall_map, Forall_forall. intros t _.
  rewrite Rabs_mult. rewrite <- (Rmult_1_r (Rabs a)) at 2.
  apply Rmult_le_compat_l; [apply Rabs_pos|].
  apply Rabs_le. pose proof (SIN_bound (2 * PI * f * (t / sr))). lra.
Qed.

Lemma add_sines_bound (d sr : R) (partials : list (R * R)) (chord w : list R) (A : R) :
  Forall (fun x => Rabs x <= A) chord ->
  add_sines d sr chord partials = Ok w ->
  Forall (fun s => Rabs s <= A + sum_list (map (fun fa => Rabs (snd fa)) partials)) w.
Proof.
  unfold add_sines. revert chord A.
  induction partials as [|[f a] rest IH]; intros chord A Hc; cbn [for_each].
  - intros [= <-]. cbn. rewrite Rplus_0_r. exact Hc.
  - destruct (make_sine_wave f a d sr) as [s|e] eqn:Hs; cbn [bind]; [|discriminate].
    destruct (iadd chord s) as [c|e] eqn:Hi; cbn [bind]; [|discriminate].
    intros Hw. apply (IH c (A + Rabs a)) in Hw.
    + cbn [map sum_list fold_right snd].
      replace (A + (Rabs a + fold_right Rplus 0 (map (fun fa => Rabs (snd fa)) rest)))
        with (A + Rabs a + sum_list (map (fun fa => Rabs (snd fa)) rest))
        by (unfold sum_list; ring).
      exact Hw.
    + eapply iadd_bound; [apply Rabs_pos | exact Hc | | exact Hi].
      eapply make_sine_wave_bound. exact Hs.
Qed.

(** X7. Every sample of a waveform returned by [generate_multi_pitch_tone]
    is at most the sum of the absolute amplitudes in absolute value; no
    normalisation is applied. *)
Theorem generate_multi_pitch_tone_bounded
    (pitch_list amp_list : list R) (d sr : R) (w : list R) :
  generate_multi_pitch_tone pitch_list amp_list d sr = Ok w ->
  Forall (fun s => Rabs s <= sum_list (map Rabs amp_list)) w.
Proof.
  unfold generate_multi_pitch_tone.
  destruct (Nat.eqb_spec (length pitch_list) (length amp_list)) as [E|E]; cbn [negb];
    [|discriminate].
  unfold torch_zeros. destruct (_ <? 0)%Z; cbn [bind]; [discriminate|].
  intros Hw. apply (add_sines_bound _ _ _ _ _ 0) in Hw.
  - rewrite Rplus_0_l in Hw.
    replace (map Rabs amp_list)
      with (map (fun fa : R * R => Rabs (snd fa)) (combine (map midi_pitch_to_hz pitch_list) amp_list));
      [exact Hw|].
    rewrite <- (length_map midi_pitch_to_hz) in E. clear Hw.
    revert E. generalize (map midi_pitch_to_hz pitch_list). intros fl. revert fl.
    induction amp_list as [|a al IH]; intros [|f fl] E; try discriminate; [reflexivity|].
    cbn [combine map snd]. f_equal. apply IH. cbn in E. lia.
  - apply Forall_forall. intros x Hx. apply repeat_spec in Hx. subst x.
    rewrite Rabs_R0. lra.
Qed.

Lemma generate_multi_pitch_tone_bounded_witness :
  exists w, generate_multi_pitch_tone [60; 64; 67] [1; 1; 1] 3 16000 = Ok w
            /\ Forall (fun s => Rabs s <= sum_list (map Rabs [1; 1; 1])) w.
Proof.
  eexists. split.
  - apply (generate_multi_pitch_tone_whole_value _ _ 3 16000 48000);
      [reflexivity | lia | exact py_mul_3_16000].
  - apply (generate_multi_pitch_tone_bounded [60; 64; 67] [1; 1; 1] 3 16000).
    apply (generate_multi_pitch_tone_whole_value _ _ 3 16000 48000);
      [reflexivity | lia | exact py_mul_3_16000].
Defined.

(** ** Sequences of pitches *)

Lemma make_sine_wave_unit (f d sr : R) :
  0 <= py_mul d sr ->
  make_sine_wave f 1 d sr = Ok (sine_wave_samples f sr (Z.to_nat (Zceil (py_mul d sr)))).
Proof.
  intros H. rewrite make_sine_wave_ok by exact H. f_equal. apply map_ext. intros n.
  rewrite Rmult_1_l. f_equal. unfold Rdiv. ring.
Qed.

(** X8. Let [x] be the product [d * sr] as the machine computes it. For
    [x >= 0], [generate_sequence_of_pitch] never raises (whole number of
    samples or not): it returns [int x] zeros followed by the unit sine waves
    of the frequencies in order, each of [ceil x] samples. *)
Theorem generate_sequence_of_pitch_layout (alist_of_hz : list R) (d sr : R) :
  0 <= py_mul d sr ->
  let lead := Z.to_nat (Zfloor (py_mul d sr)) in
  let count := Z.to_nat (Zceil (py_mul d sr)) in
  generate_sequence_of_pitch alist_of_hz d sr
  = Ok (repeat 0 lead ++ concat (map (fun f => sine_wave_samples f sr count) alist_of_hz))
  /\ forall w, generate_sequence_of_pitch alist_of_hz d sr = Ok w ->
       length w = (lead + length alist_of_hz * count)%nat.
Proof.
  intros H0 lead count.
  assert (Hf : (0 <= Zfloor (py_mul d sr))%Z) by (apply Zfloor_lub; exact H0).
  assert (Heq : generate_sequence_of_pitch alist_of_hz d sr
    = Ok (repeat 0 lead ++ concat (map (fun f => sine_wave_samples f sr count) alist_of_hz))).
  { unfold generate_sequence_of_pitch. rewrite py_int_nonneg by exact H0.
    rewrite torch_zeros_nonneg by exact Hf. cbn [bind]. fold lead.
    generalize (repeat 0 lead) as acc.
    induction alist_of_hz as [|f fs IH]; intros acc; cbn [for_each map concat].
    - rewrite app_nil_r. reflexivity.
    - rewrite make_sine_wave_unit by exact H0. cbn [bind]. fold count.
      rewrite IH, app_assoc. reflexivity. }
  split; [exact Heq|]. intros w Hw. rewrite Heq in Hw. injection Hw as <-.
  rewrite length_app, repeat_length. f_equal. clear Heq.
  induction alist_of_hz as [|f fs IH]; [reflexivity|].
  cbn [map concat length]. rewrite length_app, IH.
  unfold sine_wave_samples at 1. rewrite length_map, length_seq. reflexivity.
Qed.

Lemma generate_sequence_of_pitch_layout_witness :
  generate_sequence_of_pitch [440; 660] 0.07 100
  = Ok (repeat 0 7 ++ concat (map (fun f => sine_wave_samples f 100 8) [440; 660])).
Proof.
  destruct py_mul_0_07_100_parts as [Hf Hc].
  pose proof (generate_sequence_of_pitch_layout [440; 660] 0.07 100
                (py_mul_nonneg 0.07 100 ltac:(lra))) as H.
  cbv zeta in H. destruct H as [H _]. rewrite Hf, Hc in H. exact H.
Defined.

(** X9. Let [x] be the product [d * sr] as the machine computes it. With no
    partials, [generate_multi_pitch_tone] returns [int x] zeros for every
    [x > -1], and raises for [x <= -1]. *)
Theorem generate_multi_pitch_tone_no_partials (d sr : R) :
  (-1 < py_mul d sr ->
     generate_multi_pitch_tone [] [] d sr = Ok (repeat 0 (Z.to_nat (Zfloor (py_mul d sr)))))
  /\ (py_mul d sr <= -1 ->
     generate_multi_pitch_tone [] [] d sr = Err (RuntimeError NegativeDimension)).
Proof.
  rewrite generate_multi_pitch_tone_unfold by reflexivity. cbn [map combine].
  split; intros H.
  - destruct (Rle_dec 0 (py_mul d sr)) as [H0|H0].
    + rewrite py_int_nonneg by exact H0.
      rewrite torch_zeros_nonneg by (apply Zfloor_lub; exact H0). reflexivity.
    + rewrite py_int_neg by lra.
      assert (Hc : Zceil (py_mul d sr) = 0%Z) by (apply Zceil_eq; lra).
      assert (Hfl : (Zfloor (py_mul d sr) <= 0)%Z).
      { rewrite <- (ZfloorZ 0). apply Zfloor_le. lra. }
      rewrite Hc. cbn [torch_zeros Z.ltb Z.compare bind add_sines for_each].
      f_equal. replace (Z.to_nat (Zfloor (py_mul d sr))) with 0%nat by lia. reflexivity.
  - rewrite py_int_neg by lra.
    assert (Hc : (Zceil (py_mul d sr) <= -1)%Z).
    { rewrite <- (Zceil_IZR (-1)). apply Zceil_le. exact H. }
    unfold torch_zeros. destruct (Z.ltb_spec (Zceil (py_mul d sr)) 0); [reflexivity|lia].
Qed.

Lemma generate_multi_pitch_tone_no_partials_witness :
  generate_multi_pitch_tone [] [] 0.7 44100 = Ok (repeat 0 (Z.to_nat 30869)).
Proof.
  destruct py_mul_0_7_44100_parts as [Hf _].
  destruct (generate_multi_pitch_tone_no_partials 0.7 44100) as [H _].
  rewrite H by (pose proof (py_mul_nonneg 0.7 44100 ltac:(lra)); lra).
  rewrite Hf. reflexivity.
Defined.

(** ** Shepard tables and sequence *)

Lemma define_pitch_rows :
  define_pitch = map (fun i => map (fun j => INR (24 + i + j * 24)) (seq 0 3)) (seq 0 24).
Proof.
  cbv [define_pitch zeros2 repeat seq fold_left set_item list_set nth map Nat.add Nat.mul].
  reflexivity.
Qed.

Lemma define_pitch_entry (i j : nat) :
  (i < 24)%nat -> (j < 3)%nat -> get_item define_pitch i j = 24 + INR i + 24 * INR j.
Proof.
  intros Hi Hj. rewrite define_pitch_rows. unfold get_item.
  rewrite (nth_map_seq _ 24) by lia. rewrite (nth_map_seq _ 3) by lia.
  rewrite !plus_INR, mult_INR. rewrite !INR_IZR_INZ. cbn [Z.of_nat Pos.of_succ_nat Pos.succ]. ring.
Qed.

(** X10. Entry [(i, j)] of the pitch table is [24 + i + 24 j]: one semitone
    per row, and one semitone above the last row of a column is the first row
    of the next column, so the cycle closes. *)
Theorem define_pitch_cycle (i j : nat) :
  (i < 24)%nat -> (j < 3)%nat ->
  get_item define_pitch i j = 24 + INR i + 24 * INR j
  /\ ((i < 23)%nat -> get_item define_pitch (S i) j = get_item define_pitch i j + 1)
  /\ ((j < 2)%nat -> get_item define_pitch 23 j + 1 = get_item define_pitch 0 (S j)).
Proof.
  intros Hi Hj. split; [apply define_pitch_entry; assumption|]. split.
  - intros Hi'. rewrite !define_pitch_entry by lia. rewrite S_INR. lra.
  - intros Hj'. rewrite !define_pitch_entry by lia. rewrite (S_INR j).
    replace (INR 23) with 23 by (rewrite INR_IZR_INZ; reflexivity).
    replace (INR 0) with 0 by reflexivity. lra.
Qed.

Lemma define_pitch_cycle_witness :
  get_item define_pitch 23 1 + 1 = get_item define_pitch 0 2.
Proof. apply (define_pitch_cycle 23 1); lia. Defined.

Lemma upper_gain_range (k : nat) : 0 < upper_gain k <= 1.
Proof.
  unfold upper_gain. split; [apply exp_pos|].
  rewrite <- exp_0. pose proof (pos_INR k).
  destruct (Req_dec (INR k) 0) as [->|Hk].
  - rewrite Rmult_0_r. apply Rle_refl.
  - apply Rlt_le, exp_increasing. nra.
Qed.

Lemma upper_gain_decreasing (i k : nat) : (i < k)%nat -> upper_gain k < upper_gain i.
Proof.
  intros H. unfold upper_gain. apply exp_increasing. apply lt_INR in H. lra.
Qed.

(** X11. Every gain of the amplitude table lies in (0, 1]; from one row to
    the next the upper partial gets quieter and the lower partial louder. *)
Theorem define_amplitude_gains (i j : nat) :
  (i < 24)%nat -> (j < 3)%nat ->
  0 < get_item define_amplitude i j <= 1
  /\ ((i < 23)%nat ->
        get_item define_amplitude (S i) 2 < get_item define_amplitude i 2
        /\ get_item define_amplitude i 0 < get_item define_amplitude (S i) 0).
Proof.
  intros Hi Hj. rewrite define_amplitude_rows. unfold get_item. split.
  - rewrite (nth_map_seq _ 24) by lia.
    destruct j as [|[|[|j]]]; cbn [nth]; try lia; try apply upper_gain_range. lra.
  - intros Hi'. rewrite !(nth_map_seq _ 24) by lia. cbn [nth].
    split; apply upper_gain_decreasing; lia.
Qed.

Lemma define_amplitude_gains_witness :
  0 < get_item define_amplitude 23 2 <= 1.
Proof. apply (define_amplitude_gains 23 2); lia. Defined.

(** ** The fade at the end of a step *)

Lemma torch_logspace_length (start stop : R) (m : Z) (ramp : list R) :
  torch_logspace start stop m = Ok ramp -> length ramp = Z.to_nat m.
Proof.
  unfold torch_logspace. destruct (m <? 0)%Z; [discriminate|].
  destruct (Z.eqb_spec m 1) as [->|_]; intros [= <-]; [reflexivity|].
  rewrite length_map, length_seq. reflexivity.
Qed.

Lemma torch_logspace_ok (start stop : R) (m : Z) :
  (0 <= m)%Z -> exists ramp, torch_logspace start stop m = Ok ramp.
Proof.
  intros H. unfold torch_logspace. destruct (Z.ltb_spec m 0); [lia|].
  destruct (m =? 1)%Z; eexists; reflexivity.
Qed.

Lemma torch_logspace_nth (start stop : R) (m : Z) (ramp : list R) (k : nat) :
  torch_logspace start stop m = Ok ramp -> (2 <= m)%Z -> (Z.of_nat k < m)%Z ->
  nth k ramp 0 = Rpower 10 (start + INR k * ((stop - start) / (IZR m - 1))).
Proof.
  unfold torch_logspace. intros Hr Hm Hk.
  destruct (Z.ltb_spec m 0); [lia|]. destruct (Z.eqb_spec m 1); [lia|].
  injection Hr as <-. rewrite nth_map_seq by lia. reflexivity.
Qed.

Lemma imul_same_length (a b : list R) :
  length a = length b -> imul a b = Ok (zip_with Rmult a b).
Proof.
  intros H. unfold imul. rewrite H, broadcast_shape_same, Nat.eqb_refl, expand_same.
  reflexivity.
Qed.

Lemma imul_empty_ramp (a : list R) :
  a <> [] -> imul a [] = Err (RuntimeError SizeMismatch).
Proof.
  intros Ha. unfold imul, broadcast_shape. cbn [length].
  destruct a as [|x [|y a]]; [contradiction| reflexivity | reflexivity].
Qed.

Lemma fade_out_window (audio : list R) (m : Z) (ramp : list R) :
  (1 <= m <= Z.of_nat (length audio))%Z ->
  torch_logspace 0 (-3) m = Ok ramp ->
  fade_out audio m
  = Ok (firstn (length audio - Z.to_nat m) audio
        ++ zip_with Rmult (skipn (length audio - Z.to_nat m) audio) ramp).
Proof.
  intros Hm Hr. unfold fade_out.
  assert (Hview : py_slice audio (- m) (Z.of_nat (length audio))
                  = skipn (length audio - Z.to_nat m) audio).
  { unfold py_slice, slice_bound.
    destruct (Z.ltb_spec (- m) 0); [|lia].
    destruct (Z.ltb_spec (Z.of_nat (length audio)) 0); [lia|].
    rewrite Z.min_id, !Z.min_r, !Z.max_r by lia.
    replace (Z.to_nat (- m + Z.of_nat (length audio))) with (length audio - Z.to_nat m)%nat
      by lia.
    apply firstn_all2. rewrite length_skipn. lia. }
  rewrite Hview, Hr. cbn [bind].
  pose proof (torch_logspace_length _ _ _ _ Hr) as Hl.
  rewrite imul_same_length by (rewrite length_skipn, Hl; lia).
  cbn [bind]. rewrite length_skipn.
  replace (length audio - (length audio - (length audio - Z.to_nat m)))%nat
    with (length audio - Z.to_nat m)%nat by lia.
  reflexivity.
Qed.

Lemma Rpower_10_m3 : Rpower 10 (-3) = / 1000.
Proof.
  replace (-3) with (- INR 3) by (cbn; lra).
  rewrite Rpower_Ropp, Rpower_pow by lra. f_equal. lra.
Qed.

(** X12. The fade of line 211 over a window of [m] samples,
    [2 <= m <= len(audio)]: the length is kept, the samples before the window
    are unchanged, sample [k] of the window is multiplied by
    [10 ^ (-3 k / (m - 1))], so the first keeps its value and the last is
    divided by 1000. *)
Theorem fade_out_taper (audio : list R) (m : Z) :
  (2 <= m <= Z.of_nat (length audio))%Z ->
  let L := length audio in
  let keep := (L - Z.to_nat m)%nat in
  exists w,
    fade_out audio m = Ok w
    /\ length w = L
    /\ (forall n, (n < keep)%nat -> nth n w 0 = nth n audio 0)
    /\ (forall k, (Z.of_nat k < m)%Z ->
          nth (keep + k) w 0
          = nth (keep + k) audio 0 * Rpower 10 (-3 * INR k / (IZR m - 1)))
    /\ nth keep w 0 = nth keep audio 0
    /\ nth (L - 1) w 0 = nth (L - 1) audio 0 / 1000.
Proof.
  intros Hm L keep.
  destruct (torch_logspace_ok 0 (-3) m) as [ramp Hr]; [lia|].
  pose proof (torch_logspace_length _ _ _ _ Hr) as Hl.
  rewrite (fade_out_window audio m ramp) by (assumption || lia).
  fold L keep.
  assert (Hkeep : length (firstn keep audio) = keep)
    by (rewrite length_firstn; unfold keep, L; lia).
  assert (Hskip : length (skipn keep audio) = Z.to_nat m)
    by (rewrite length_skipn; unfold keep, L; lia).
  assert (Hwin : forall k, (Z.of_nat k < m)%Z ->
            nth (keep + k) (firstn keep audio ++ zip_with Rmult (skipn keep audio) ramp) 0
            = nth (keep + k) audio 0 * Rpower 10 (-3 * INR k / (IZR m - 1))).
  { intros k Hk. rewrite app_nth2 by lia. rewrite Hkeep.
    replace (keep + k - keep)%nat with k by lia.
    rewrite zip_with_nth by lia. rewrite nth_skipn.
    rewrite (torch_logspace_nth 0 (-3) m ramp k Hr) by lia.
    f_equal. f_equal. unfold Rdiv. ring. }
  eexists. split; [reflexivity|]. split; [|split; [|split; [|split]]].
  - rewrite length_app, Hkeep, zip_with_length by lia. rewrite Hskip. unfold keep, L. lia.
  - intros n Hn. rewrite app_nth1 by lia. rewrite nth_firstn.
    destruct (Nat.ltb_spec n keep); [reflexivity|lia].
  - exact Hwin.
  - assert (H0 : (Z.of_nat 0 < m)%Z) by lia. apply Hwin in H0.
    rewrite Nat.add_0_r in H0. rewrite H0.
    cbn [INR]. unfold Rdiv. rewrite Rmult_0_r, Rmult_0_l, Rpower_O by lra. lra.
  - replace (L - 1)%nat with (keep + (Z.to_nat m - 1))%nat by (unfold keep, L; lia).
    rewrite Hwin by lia. unfold Rdiv at 2. f_equal.
    replace (INR (Z.to_nat m - 1)) with (IZR m - 1).
    + replace (-3 * (IZR m - 1) / (IZR m - 1)) with (-3).
      * apply Rpower_10_m3.
      * field. assert (2 <= IZR m) by (apply IZR_le; lia). lra.
    + rewrite INR_IZR_INZ. replace (Z.of_nat (Z.to_nat m - 1)) with (m - 1)%Z by lia.
      rewrite minus_IZR. reflexivity.
Qed.

Lemma fade_out_taper_witness :
  exists w, fade_out [1; 1; 1; 1] 2 = Ok w /\ nth 3 w 0 = nth 3 [1; 1; 1; 1] 0 / 1000.
Proof.
  destruct (fade_out_taper [1; 1; 1; 1] 2) as (w & Hw & _ & _ & _ & _ & Hlast);
    [cbn; lia|].
  exists w. split; [exact Hw | exact Hlast].
Defined.

Lemma fade_out_no_window (audio : list R) :
  audio <> [] -> fade_out audio 0 = Err (RuntimeError SizeMismatch).
Proof.
  intros Ha. unfold fade_out.
  assert (Hview : py_slice audio (- 0) (Z.of_nat (length audio)) = audio).
  { unfold py_slice, slice_bound. cbn [Z.opp Z.ltb Z.compare].
    destruct (Z.ltb_spec (Z.of_nat (length audio)) 0); [lia|].
    rewrite Z.min_id, Z.min_r, !Z.max_r by lia.
    rewrite Z.sub_0_r, Nat2Z.id. cbn [Z.to_nat skipn]. apply firstn_all. }
  rewrite Hview. cbn [torch_logspace Z.ltb Z.eqb Z.compare Z.to_nat seq map bind].
  rewrite imul_empty_ramp by exact Ha. reflexivity.
Qed.

Lemma fade_out_empty : fade_out [] 0 = Ok [].
Proof. reflexivity. Qed.

(** ** The Shepard sequence *)

Lemma py_range_count (n : Z) :
  py_range 0 n 1 = Ok (map Z.of_nat (seq 0 (Z.to_nat n))).
Proof.
  rewrite py_range_forward by lia.
  replace (n + 1 - 1)%Z with n by lia. rewrite Z.div_1_r. f_equal.
  apply map_ext. intros k. lia.
Qed.

Lemma for_each_append {A B : Type} (f : A -> result B) (xs : list A) (acc : list B) :
  for_each (fun outputs x => y <- f x ;; Ok (outputs ++ [y])) xs acc
  = (ys <- map_result f xs ;; Ok (acc ++ ys)).
Proof.
  revert acc. induction xs as [|x xs IH]; intros acc; cbn [for_each map_result bind].
  - rewrite app_nil_r. reflexivity.
  - destruct (f x) as [y|e]; cbn [bind]; [|reflexivity].
    rewrite IH. destruct (map_result f xs) as [ys|e]; cbn [bind]; [|reflexivity].
    rewrite <- app_assoc. reflexivity.
Qed.

Lemma for_each_repeat {A B : Type} (ys : list B) (steps : list A) (acc : list B) :
  for_each (fun outputs (_ : A) => Ok (outputs ++ ys)) steps acc
  = Ok (acc ++ concat (repeat ys (length steps))).
Proof.
  revert acc. induction steps as [|s steps IH]; intros acc; cbn [for_each length repeat concat bind].
  - rewrite app_nil_r. reflexivity.
  - rewrite IH, app_assoc. reflexivity.
Qed.

Lemma for_each_ext {A S : Type} (f g : S -> A -> result S) (xs : list A) (acc : S) :
  (forall a x, f a x = g a x) -> for_each f xs acc = for_each g xs acc.
Proof.
  intros H. revert acc. induction xs as [|x xs IH]; intros acc; cbn [for_each]; [reflexivity|].
  rewrite H. destruct (g acc x); cbn [bind]; [apply IH | reflexivity].
Qed.

Lemma step_loop (self : ShepardToneGenerator.t) (rows : list Z) (acc : list (list R)) :
  for_each
    (fun outputs j =>
       audio <- generate_multi_pitch_tone
                  (nth (Z.to_nat j) (pitch_combinations self) [])
                  (nth (Z.to_nat j) (amplitude_combinations self) [])
                  (dur self) (ShepardToneGenerator.sr self) ;;
       audio <- fade_out audio
                  (py_int (py_mul (fadeout_margin self) (ShepardToneGenerator.sr self))) ;;
       Ok (outputs ++ [audio]))
    rows acc
  = (ys <- map_result (step_audio self) rows ;; Ok (acc ++ ys)).
Proof.
  rewrite <- for_each_append. apply for_each_ext. intros a j. unfold step_audio.
  destruct (generate_multi_pitch_tone _ _ _ _) as [au|e]; cbn [bind]; [|reflexivity].
  destruct (fade_out au _) as [au'|e]; reflexivity.
Qed.

Lemma generate_unfold (self : ShepardToneGenerator.t) :
  generate self =
  (outputs <-
     for_each
       (fun outputs (_ : Z) =>
          ys <- map_result (step_audio self)
                  (map Z.of_nat (seq 0 (length (pitch_combinations self)))) ;;
          Ok (outputs ++ ys))
       (map Z.of_nat (seq 0 (Z.to_nat (iter self)))) [] ;;
   torch_cat outputs).
Proof.
  unfold generate. rewrite py_range_count. cbn [bind]. f_equal.
  apply for_each_ext. intros a _.
  rewrite py_range_count, Nat2Z.id. cbn [bind]. apply step_loop.
Qed.

(** X13. With an iteration count of zero or less, [generate] raises:
    [torch.cat] gets an empty list. *)
Theorem generate_no_iteration (self : ShepardToneGenerator.t) :
  (iter self <= 0)%Z -> generate self = Err (RuntimeError EmptyStack).
Proof.
  intros H. rewrite generate_unfold.
  replace (Z.to_nat (iter self)) with 0%nat by lia. reflexivity.
Qed.

Lemma generate_no_iteration_witness :
  generate (ShepardToneGenerator.init 16000 0.3 0) = Err (RuntimeError EmptyStack).
Proof. apply generate_no_iteration. cbn. lia. Defined.

(** The fade window of a generator built by [init] has
    [int ((d * 0.1) * sr)] samples, both products as the machine computes
    them: none for steps of fewer than 10 samples, between 1 and the step
    length for steps of 11 samples or more. *)
Lemma fade_count_zero (d sr : R) :
  0 <= d * sr < 9.9 -> py_int (py_mul (py_mul d 0.1) sr) = 0%Z.
Proof.
  intros [H0 H1]. destruct H0 as [H0|H0].
  - pose proof (fade_product_bounds d sr H0) as Hb.
    rewrite py_int_nonneg by lra. apply Zfloor_eq. lra.
  - assert (Hz : py_mul (py_mul d 0.1) sr = 0).
    { symmetry in H0. apply Rmult_integral in H0 as [-> | ->].
      - rewrite py_mul_0_l. apply py_mul_0_l.
      - apply py_mul_0_r. }
    rewrite Hz, py_int_nonneg by lra. apply (ZfloorZ 0).
Qed.

Lemma py_mul_pos_inv (d sr : R) : 0 < py_mul d sr -> 0 < d * sr.
Proof.
  intros H. destruct (py_mul_sign d sr) as (Hs & _ & Hs0).
  assert (H0 : 0 <= d * sr) by (apply Hs; lra).
  destruct H0 as [H0|H0]; [exact H0|]. symmetry in H0. apply Hs0 in H0. lra.
Qed.

Lemma fade_count_inside (d sr : R) (z : Z) :
  py_mul d sr = IZR z -> (11 <= z)%Z ->
  (1 <= py_int (py_mul (py_mul d 0.1) sr) <= z)%Z.
Proof.
  intros Hx Hz. apply IZR_le in Hz.
  assert (HP : 0 < d * sr) by (apply py_mul_pos_inv; lra).
  pose proof (py_mul_near d sr (Rlt_le _ _ HP)) as Hn. rewrite Hx in Hn.
  pose proof (fade_product_bounds d sr HP) as Hb.
  rewrite py_int_nonneg by lra. split.
  - apply Zfloor_lub. lra.
  - apply le_IZR. pose proof (Zfloor_bound (py_mul (py_mul d 0.1) sr)). lra.
Qed.

Lemma fade_out_length (audio : list R) (m : Z) :
  (1 <= m <= Z.of_nat (length audio))%Z ->
  exists w, fade_out audio m = Ok w /\ length w = length audio.
Proof.
  intros Hm. destruct (torch_logspace_ok 0 (-3) m) as [ramp Hr]; [lia|].
  pose proof (torch_logspace_length _ _ _ _ Hr) as Hl.
  rewrite (fade_out_window audio m ramp) by assumption.
  eexists. split; [reflexivity|].
  rewrite length_app, length_firstn, zip_with_length by (rewrite length_skipn; lia).
  rewrite length_skipn. lia.
Qed.

Lemma table_row_lengths (k : nat) :
  (k < 24)%nat ->
  length (nth k define_pitch []) = 3%nat /\ length (nth k define_amplitude []) = 3%nat.
Proof.
  intros Hk. rewrite define_pitch_rows, define_amplitude_rows.
  rewrite !(nth_map_seq _ 24) by exact Hk. split; reflexivity.
Qed.

Lemma step_audio_init (sr d : R) (it : Z) (k : nat) :
  step_audio (ShepardToneGenerator.init sr d it) (Z.of_nat k)
  = (audio <- generate_multi_pitch_tone
                (nth k define_pitch []) (nth k define_amplitude []) d sr ;;
     fade_out audio (py_int (py_mul (py_mul d 0.1) sr))).
Proof.
  unfold step_audio, ShepardToneGenerator.init.
  cbn [pitch_combinations amplitude_combinations dur ShepardToneGenerator.sr fadeout_margin].
  rewrite Nat2Z.id. reflexivity.
Qed.

Lemma step_audio_whole (sr d : R) (it z : Z) (k : nat) :
  py_mul d sr = IZR z -> (0 <= z)%Z -> (k < 24)%nat ->
  exists audio,
    generate_multi_pitch_tone (nth k define_pitch []) (nth k define_amplitude []) d sr
    = Ok audio
    /\ length audio = Z.to_nat z
    /\ step_audio (ShepardToneGenerator.init sr d it) (Z.of_nat k)
       = fade_out audio (py_int (py_mul (py_mul d 0.1) sr)).
Proof.
  intros Hx Hz Hk. destruct (table_row_lengths k Hk) as [Hp Ha].
  eexists. split; [|split].
  - apply (generate_multi_pitch_tone_whole_value _ _ d sr z); [congruence | exact Hz | exact Hx].
  - rewrite length_map, length_seq. reflexivity.
  - rewrite step_audio_init.
    rewrite (generate_multi_pitch_tone_whole_value _ _ d sr z) by (congruence || assumption).
    reflexivity.
Qed.

Lemma torch_cat_nonempty (l : list (list R)) :
  l <> [] -> torch_cat l = Ok (concat l).
Proof. destruct l; [contradiction|reflexivity]. Qed.

Lemma length_concat_const {A : Type} (l : list (list A)) (n : nat) :
  Forall (fun x => length x = n) l -> length (concat l) = (length l * n)%nat.
Proof.
  induction 1 as [|x l Hx _ IH]; [reflexivity|].
  cbn [concat length]. rewrite length_app, Hx, IH. reflexivity.
Qed.

Lemma concat_repeat_Forall {A : Type} (P : A -> Prop) (ys : list A) (n : nat) :
  Forall P ys -> Forall P (concat (repeat ys n)).
Proof.
  intros H. induction n as [|n IH]; cbn [repeat concat]; [constructor|].
  apply Forall_app. split; assumption.
Qed.

Lemma concat_repeat_length {A : Type} (ys : list A) (n : nat) :
  length (concat (repeat ys n)) = (n * length ys)%nat.
Proof.
  induction n as [|n IH]; cbn [repeat concat]; [reflexivity|].
  rewrite length_app, IH. reflexivity.
Qed.

Lemma define_pitch_length : length define_pitch = 24%nat.
Proof. rewrite define_pitch_rows, length_map, length_seq. reflexivity. Qed.

(** When each of the 24 steps yields [n] samples, the sequence has
    [24 * iter * n]. *)
Lemma generate_steps (sr d : R) (it : Z) (n : nat) :
  (1 <= it)%Z ->
  (forall k, (k < 24)%nat ->
     exists w, step_audio (ShepardToneGenerator.init sr d it) (Z.of_nat k) = Ok w
               /\ length w = n) ->
  exists w,
    generate (ShepardToneGenerator.init sr d it) = Ok w
    /\ Z.of_nat (length w) = (24 * it * Z.of_nat n)%Z.
Proof.
  intros Hit Hsteps.
  set (self := ShepardToneGenerator.init sr d it).
  destruct (map_result_all_ok (step_audio self) (fun y => length y = n)
              (map Z.of_nat (seq 0 24))) as (ys & Hys & Hlen & Hall).
  { intros j Hj. apply in_map_iff in Hj as (k & <- & Hk). apply in_seq in Hk.
    apply Hsteps. lia. }
  rewrite length_map, length_seq in Hlen.
  rewrite generate_unfold.
  change (pitch_combinations self) with define_pitch. rewrite define_pitch_length.
  change (iter self) with it.
  rewrite (for_each_ext _ (fun outputs (_ : Z) => Ok (outputs ++ ys)))
    by (intros a x; rewrite Hys; reflexivity).
  rewrite for_each_repeat. cbn [bind app]. rewrite length_map, length_seq.
  rewrite torch_cat_nonempty.
  - eexists. split; [reflexivity|].
    rewrite (length_concat_const _ n) by (apply concat_repeat_Forall; exact Hall).
    rewrite concat_repeat_length, Hlen. lia.
  - intros E. apply (f_equal (@length _)) in E.
    rewrite concat_repeat_length, Hlen in E. cbn [length] in E. lia.
Qed.

(** The sequence stops at the error of its first step. *)
Lemma generate_first_step (sr d : R) (it : Z) (e : exn) :
  (1 <= it)%Z ->
  step_audio (ShepardToneGenerator.init sr d it) (Z.of_nat 0) = Err e ->
  generate (ShepardToneGenerator.init sr d it) = Err e.
Proof.
  intros Hit Hstep.
  set (self := ShepardToneGenerator.init sr d it) in *.
  rewrite generate_unfold.
  change (pitch_combinations self) with define_pitch. rewrite define_pitch_length.
  change (iter self) with it.
  destruct (Z.to_nat it) as [|n] eqn:En; [lia|].
  cbn [seq map for_each map_result]. rewrite Hstep. reflexivity.
Qed.

(** A step whose computed sample count is below 1: every tone is the empty
    waveform, nothing is faded, and the sequence is empty. *)
Lemma generate_below_one (sr d : R) (it : Z) :
  (1 <= it)%Z -> 0 < py_mul d sr < 1 ->
  generate (ShepardToneGenerator.init sr d it) = Ok [].
Proof.
  intros Hit Hx.
  assert (HP : 0 < d * sr) by (apply py_mul_pos_inv; lra).
  pose proof (py_mul_near d sr (Rlt_le _ _ HP)) as Hn.
  destruct (generate_steps sr d it 0 Hit) as (w & Hw & Hl).
  { intros k Hk. rewrite step_audio_init. destruct (table_row_lengths k Hk) as [Hp Ha].
    rewrite generate_multi_pitch_tone_unfold by congruence.
    assert (Hf : Zfloor (py_mul d sr) = 0%Z) by (apply Zfloor_eq; lra).
    rewrite py_int_nonneg by lra. rewrite Hf.
    cbn [torch_zeros Z.ltb Z.compare Z.to_nat repeat bind].
    rewrite add_sines_empty_acc by exact Hx. cbn [bind].
    rewrite fade_count_zero by lra. exists []. split; reflexivity. }
  rewrite Hw. destruct w; [reflexivity | cbn [length] in Hl; lia].
Qed.

(** X14. For a generator built by [init] with at least one iteration, when
    the product [dur_per_step * sr] as the machine computes it is a whole
    number [z] of samples with [z = 0] or [z >= 11], [generate] returns
    [24 * iter * z] samples. *)
Theorem generate_length (sr d : R) (it z : Z) :
  (1 <= it)%Z -> py_mul d sr = IZR z -> (z = 0 \/ 11 <= z)%Z ->
  exists w,
    generate (ShepardToneGenerator.init sr d it) = Ok w
    /\ Z.of_nat (length w) = (24 * it * z)%Z.
Proof.
  intros Hit Hx Hz.
  assert (Hz0 : (0 <= z)%Z) by lia.
  destruct (generate_steps sr d it (Z.to_nat z) Hit) as (w & Hw & Hl).
  { intros k Hk.
    destruct (step_audio_whole sr d it z k Hx Hz0 Hk) as (audio & _ & Hal & Hstep).
    rewrite Hstep. destruct Hz as [->|Hz].
    - destruct audio; [|discriminate].
      assert (H0 : d * sr = 0) by (apply (py_mul_sign d sr); exact Hx).
      rewrite fade_count_zero by lra. exists []. split; reflexivity.
    - pose proof (fade_count_inside d sr z Hx Hz) as Hm.
      destruct (fade_out_length audio (py_int (py_mul (py_mul d 0.1) sr)))
        as (w & Hw & Hwl); [lia|].
      exists w. split; [exact Hw | congruence]. }
  exists w. split; [exact Hw | rewrite Hl; lia].
Qed.

Lemma fl64_half : fl64 0.5 = 0.5.
Proof.
  replace 0.5 with (double 1 (-1)) by (unfold double; pow2_literals; lra).
  apply fl64_double. reflexivity.
Qed.

(** The generator of the script, [ShepardToneGenerator(16000, 0.3, 3)]:
    345600 samples, with the decimal [0.3] or with its double as the
    argument. *)
Lemma generate_length_witness :
  (exists w, generate (ShepardToneGenerator.init 16000 0.3 3) = Ok w
             /\ Z.of_nat (length w) = 345600%Z)
  /\ (exists w, generate (ShepardToneGenerator.init 16000 double_0_3 3) = Ok w
                /\ Z.of_nat (length w) = 345600%Z)
  /\ (exists w, generate (ShepardToneGenerator.init 16000 0.5 3) = Ok w
                /\ Z.of_nat (length w) = 576000%Z).
Proof.
  destruct py_mul_0_3_16000 as [H3 D3]. split; [|split].
  - destruct (generate_length 16000 0.3 3 4800) as (w & Hw & Hl); [lia | exact H3 | lia |].
    exists w. split; [exact Hw | rewrite Hl; reflexivity].
  - destruct (generate_length 16000 double_0_3 3 4800) as (w & Hw & Hl);
      [lia | exact D3 | lia |].
    exists w. split; [exact Hw | rewrite Hl; reflexivity].
  - destruct (generate_length 16000 0.5 3 8000) as (w & Hw & Hl); [lia | | lia |].
    + apply py_mul_IZR; [exact fl64_half | apply fl64_IZR; reflexivity | reflexivity | lra].
    + exists w. split; [exact Hw | rewrite Hl; reflexivity].
Defined.

(** Steps of [0.7] s at 44100 Hz: the computed product is
    30869.999999999996, the first tone raises and so does the sequence. *)
Lemma generate_0_7_44100 (it : Z) :
  (1 <= it)%Z ->
  generate (ShepardToneGenerator.init 44100 0.7 it) = Err (RuntimeError SizeMismatch).
Proof.
  intros Hit. destruct py_mul_0_7_44100 as [H7 _].
  assert (Hv : IZR 30869 < py_mul 0.7 44100 < IZR 30869 + 1)
    by (rewrite H7; unfold double; pow2_literals; lra).
  apply generate_first_step; [exact Hit|].
  rewrite step_audio_init. destruct (table_row_lengths 0) as [Hp Ha]; [lia|].
  rewrite generate_multi_pitch_tone_mismatch; [reflexivity | | congruence | | lra].
  - intros E. rewrite E in Hp. discriminate.
  - apply (between_not_int 30869). exact Hv.
Qed.

(** A step whose computed sample count is at least 1 and whose exact count
    is below 9.9 makes [generate] raise a size mismatch: a whole count leaves
    the fade window empty against a step that is not; a count that is not
    whole already fails in the tone. *)
Lemma generate_short_step_raises (sr d : R) (it : Z) :
  (1 <= it)%Z -> d * sr < 9.9 -> 1 <= py_mul d sr ->
  generate (ShepardToneGenerator.init sr d it) = Err (RuntimeError SizeMismatch).
Proof.
  intros Hit Hs Hx. apply generate_first_step; [exact Hit|].
  assert (HP : 0 < d * sr) by (apply py_mul_pos_inv; lra).
  destruct (Req_dec (py_mul d sr) (IZR (Zfloor (py_mul d sr)))) as [Hr|Hr].
  - assert (Hk : (1 <= Zfloor (py_mul d sr))%Z) by (apply Zfloor_lub; exact Hx).
    destruct (step_audio_whole sr d it _ 0 Hr) as (audio & _ & Hal & Hstep); [lia | lia |].
    rewrite Hstep. rewrite fade_count_zero by lra.
    apply fade_out_no_window. intros ->. cbn [length] in Hal. lia.
  - assert (Hfrac : forall z, py_mul d sr <> IZR z).
    { intros z Hz. apply Hr. rewrite Hz at 2. rewrite ZfloorZ. exact Hz. }
    assert (H1 : 1 < py_mul d sr).
    { destruct Hx as [Hx|Hx]; [exact Hx|]. exfalso. apply (Hfrac 1%Z). symmetry. exact Hx. }
    rewrite step_audio_init. destruct (table_row_lengths 0) as [Hp Ha]; [lia|].
    rewrite generate_multi_pitch_tone_mismatch; [reflexivity | | congruence | exact Hfrac | exact H1].
    intros E. rewrite E in Hp. discriminate.
Qed.

(** X15. For steps of 1 to 9 samples ([d * sr] the whole number [z])
    [generate] raises a size mismatch whenever the product as the machine
    computes it is at least 1: either that product is whole, the fade window
    is empty and the slice [audio[-0:]] is the whole step, or it is not
    whole and the sum in the tone already fails. That is the case for every
    [z >= 2], and for [z = 1] when [d] and [sr] are doubles. When the
    computed product falls below 1 (then [z = 1]), the sequence is empty and
    nothing is raised. *)
Theorem generate_short_step (sr d : R) (it z : Z) :
  (1 <= it)%Z -> d * sr = IZR z -> (1 <= z <= 9)%Z ->
  (1 <= py_mul d sr ->
     generate (ShepardToneGenerator.init sr d it) = Err (RuntimeError SizeMismatch))
  /\ ((2 <= z)%Z ->
     generate (ShepardToneGenerator.init sr d it) = Err (RuntimeError SizeMismatch))
  /\ (fl64 d = d -> fl64 sr = sr ->
     generate (ShepardToneGenerator.init sr d it) = Err (RuntimeError SizeMismatch))
  /\ (py_mul d sr < 1 ->
     z = 1%Z /\ generate (ShepardToneGenerator.init sr d it) = Ok []).
Proof.
  intros Hit Hx Hz.
  assert (Hb : 1 <= IZR z <= 9) by (split; apply IZR_le; lia).
  pose proof (py_mul_near d sr ltac:(lra)) as Hn. rewrite Hx in Hn.
  assert (Hs : d * sr < 9.9) by lra.
  split; [|split; [|split]].
  - intros H1. apply generate_short_step_raises; assumption.
  - intros H2. apply IZR_le in H2. apply generate_short_step_raises; try assumption. lra.
  - intros Hd Hsr. apply generate_short_step_raises; try assumption.
    rewrite (py_mul_IZR d sr z) by (assumption || rewrite two_pow_53; lia). lra.
  - intros H1. assert (Hz1 : z = 1%Z).
    { assert (IZR z < 2) by lra. apply lt_IZR in H. lia. }
    split; [exact Hz1|]. apply generate_below_one; [exact Hit|].
    subst z. lra.
Qed.

Lemma generate_short_step_witness :
  generate (ShepardToneGenerator.init 16000 0.0005 3) = Err (RuntimeError SizeMismatch).
Proof.
  destruct (generate_short_step 16000 0.0005 3 8) as (_ & H & _); [lia | lra | lia |].
  apply H. lia.
Defined.

(** A step of one sample whose computed count falls below 1: with
    [d = 1/49] at 49 Hz the exact product is 1, the computed one is
    0.9999999999999999, and the sequence is empty. *)
Lemma generate_short_step_rounded_down :
  1 / 49 * 49 = 1 /\ py_mul (1 / 49) 49 < 1
  /\ generate (ShepardToneGenerator.init 49 (1 / 49) 1) = Ok [].
Proof.
  assert (Hv : 0 < py_mul (1 / 49) 49 < 1).
  { rewrite py_mul_49th_49. unfold double. pow2_literals. lra. }
  split; [lra|]. split; [lra|]. apply generate_below_one; [lia | exact Hv].
Qed.

(** ** More on the spectrogram *)

Lemma map_result_Forall {A B : Type} (f : A -> result B) (P : B -> Prop)
    (xs : list A) (ys : list B) :
  (forall x y, f x = Ok y -> P y) -> map_result f xs = Ok ys -> Forall P ys.
Proof.
  intros H. revert ys. induction xs as [|x xs IH]; intros ys; cbn [map_result].
  - intros [= <-]. constructor.
  - destruct (f x) as [y|e] eqn:Hy; cbn [bind]; [|discriminate].
    destruct (map_result f xs) as [ys'|e]; cbn [bind]; [|discriminate].
    intros [= <-]. constructor; [apply (H x); exact Hy | apply IH; reflexivity].
Qed.

Lemma pow_nonneg_ge_0 (x p : R) : 0 <= pow_nonneg x p.
Proof.
  unfold pow_nonneg. destruct (Req_dec_T x 0); [destruct (Req_dec_T p 0); lra|].
  unfold Rpower. apply Rlt_le, exp_pos.
Qed.

Lemma spectrogram_slice_nonneg (self : SpectrogramConverter.t) (audio : list R)
    (s : Z) (col : list R) :
  spectrogram_slice self audio s = Ok col -> Forall (fun v => 0 <= v) col.
Proof.
  unfold spectrogram_slice.
  destruct (windowed_slice self audio s) as [w|e]; cbn [bind]; [|discriminate].
  destruct (torch_fft w) as [c|e]; cbn [bind]; [|discriminate].
  intros [= <-]. apply Forall_map, Forall_forall. intros v _. apply pow_nonneg_ge_0.
Qed.

Lemma nth_nonneg (l : list R) (n : nat) : Forall (fun v => 0 <= v) l -> 0 <= nth n l 0.
Proof.
  intros H. destruct (nth_in_or_default n l 0) as [Hin| ->]; [|apply Rle_refl].
  rewrite Forall_forall in H. apply H. exact Hin.
Qed.

(** X16. Every entry of every spectrogram [get_spectrogram] returns is
    non-negative. *)
Theorem get_spectrogram_nonneg (self : SpectrogramConverter.t) (audio : tensor)
    (spec : list (list R)) :
  get_spectrogram self audio = Ok spec ->
  Forall (Forall (fun v => 0 <= v)) spec.
Proof.
  unfold get_spectrogram.
  destruct (to_mono audio) as [a|e]; cbn [bind]; [|discriminate].
  destruct (py_range _ _ _) as [starts|e]; cbn [bind]; [|discriminate].
  destruct (map_result _ starts) as [output|e] eqn:Hout; cbn [bind]; [|discriminate].
  apply (map_result_Forall _ (Forall (fun v => 0 <= v))) in Hout;
    [|intros x y; apply spectrogram_slice_nonneg].
  unfold torch_stack1. destruct output as [|f0 rest] eqn:Eo; cbn [bind]; [discriminate|].
  rewrite <- Eo in *. clear Eo.
  destruct (forallb _ output); cbn [bind]; [|discriminate].
  intros [= <-]. apply Forall_forall. intros row Hrow. apply py_slice_In in Hrow.
  apply in_map_iff in Hrow as (r & <- & _). apply Forall_map.
  apply Forall_forall. intros f Hf. apply nth_nonneg.
  rewrite Forall_forall in Hout. apply Hout. exact Hf.
Qed.

Lemma get_spectrogram_dims
    (nfft hop : Z) (rate : R) (mels : Z) (p : R) (self : SpectrogramConverter.t)
    (audio : list R) :
  init nfft hop rate mels p = Ok self ->
  (0 < nfft)%Z -> (0 < hop)%Z -> (nfft <= Z.of_nat (length audio))%Z ->
  exists spec,
    get_spectrogram self (T1 audio) = Ok spec
    /\ length spec = Z.to_nat (nfft / 2 + 1)
    /\ Forall (fun row => length row
                          = Z.to_nat ((Z.of_nat (length audio) - nfft) / hop + 1)) spec.
Proof.
  intros Hinit Hn Hh HN.
  destruct (init_fields _ _ _ _ _ _ Hinit) as (En & Eh & _ & _).
  set (N := Z.of_nat (length audio)) in *.
  set (F := ((N - nfft) / hop)%Z).
  assert (HF : (0 <= F)%Z) by (apply Z.div_pos; lia).
  assert (Hlast : (F * hop + nfft <= N)%Z).
  { pose proof (Z.mul_div_le (N - nfft) hop Hh). unfold F. lia. }
  destruct (map_result_all_ok (spectrogram_slice self audio)
              (fun col => length col = Z.to_nat nfft)
              (map (fun k => (Z.of_nat k * hop)%Z) (seq 0 (Z.to_nat (F + 1)))))
    as (output & Hout & Hlen & Hcols).
  { intros s Hs. apply in_map_iff in Hs as (k & <- & Hk). apply in_seq in Hk.
    assert (Z.of_nat k * hop <= F * hop)%Z by (apply Z.mul_le_mono_nonneg_r; lia).
    apply (spectrogram_slice_ok nfft hop rate mels p self Hinit Hn audio); fold N; lia. }
  rewrite length_map, length_seq in Hlen.
  destruct (torch_stack1_shape output (Z.to_nat nfft)) as (stacked & Hst & Hrows & Hrow).
  { intros ->. cbn in Hlen. lia. }
  { exact Hcols. }
  assert (Hhalf : (0 <= nfft / 2 + 1 <= nfft)%Z).
  { split; [apply Z.add_nonneg_nonneg; [apply Z.div_pos|]; lia|].
    destruct (Z.eq_dec nfft 1) as [->|Hne]; [reflexivity|].
    assert (nfft / 2 < nfft)%Z by (apply Z.div_lt; lia). lia. }
  exists (py_slice stacked 0 (nfft / 2 + 1)). split; [|split].
  - rewrite get_spectrogram_unfold by lia. rewrite En, Eh. fold N.
    rewrite frame_count_full by assumption. fold F.
    rewrite Hout. cbn [bind]. rewrite Hst. reflexivity.
  - rewrite py_slice_length by lia. f_equal. lia.
  - apply Forall_forall. intros row Hrow'. apply py_slice_In in Hrow'.
    rewrite Forall_forall in Hrow. rewrite (Hrow row Hrow'), Hlen. reflexivity.
Qed.

Lemma get_spectrogram_nonneg_witness :
  exists self spec,
    init 4 2 16000 128 2 = Ok self
    /\ get_spectrogram self (T1 [1; 2; 3; 4; 5; 6; 7]) = Ok spec
    /\ Forall (Forall (fun v => 0 <= v)) spec.
Proof.
  destruct (init_ok 4 2 16000 128 2) as [self Hself]; [lia|].
  destruct (get_spectrogram_dims 4 2 16000 128 2 self [1; 2; 3; 4; 5; 6; 7] Hself)
    as (spec & Hspec & _); [lia | lia | cbn; lia |].
  exists self, spec. split; [exact Hself|]. split; [exact Hspec|].
  apply (get_spectrogram_nonneg self (T1 [1; 2; 3; 4; 5; 6; 7]) spec Hspec).
Defined.

(** *** Reduction to one channel *)

Lemma mean_single_channel (row : list R) : mean_dim0 [row] = row.
Proof.
  unfold mean_dim0. cbn [hd length map sum_list fold_right INR].
  apply (nth_ext _ _ 0 0).
  - rewrite length_map, length_seq. reflexivity.
  - intros n Hn. rewrite length_map, length_seq in Hn.
    rewrite nth_map_seq by exact Hn. field.
Qed.

Lemma mean_single_column (l : list R) : mean_dim1 (map (fun x => [x]) l) = l.
Proof.
  unfold mean_dim1. rewrite map_map. rewrite <- (map_id l) at 2.
  apply map_ext. intros x. cbn. field.
Qed.

(** X17. A 2-D input of one channel, laid out as [1 x N] or [N x 1] with
    [N > 1], has the spectrogram of its samples as a 1-D input; two channels
    of [N > 2] samples have the spectrogram of their average. *)
Theorem get_spectrogram_mono (self : SpectrogramConverter.t) (audio left right : list R) :
  (1 < length audio)%nat ->
  get_spectrogram self (T2 [audio]) = get_spectrogram self (T1 audio)
  /\ get_spectrogram self (T2 (map (fun x => [x]) audio)) = get_spectrogram self (T1 audio)
  /\ (length left = length audio -> length right = length audio ->
      (2 < length audio)%nat ->
      get_spectrogram self (T2 [left; right])
      = get_spectrogram self
          (T1 (map (fun n => (nth n left 0 + nth n right 0) / 2) (seq 0 (length audio))))).
Proof.
  intros Hlen. unfold get_spectrogram. split; [|split].
  - unfold to_mono. cbn [hd length].
    destruct (Nat.ltb_spec 1 (length audio)); [|lia].
    rewrite mean_single_channel. reflexivity.
  - unfold to_mono. rewrite length_map.
    destruct audio as [|x audio']; [cbn in Hlen; lia|].
    cbn [map hd length]. destruct (Nat.ltb_spec (S (length audio')) 1); [lia|].
    change ([x] :: map (fun x0 => [x0]) audio') with (map (fun x0 => [x0]) (x :: audio')).
    rewrite mean_single_column. reflexivity.
  - intros Hl Hr Hn. unfold to_mono. cbn [hd length].
    destruct (Nat.ltb_spec 2 (length left)); [|lia].
    replace (mean_dim0 [left; right])
      with (map (fun n => (nth n left 0 + nth n right 0) / 2) (seq 0 (length audio)));
      [reflexivity|].
    unfold mean_dim0. cbn [hd length map sum_list fold_right INR]. rewrite Hl.
    apply map_ext. intros n. field.
Qed.

Lemma get_spectrogram_mono_witness :
  get_spectrogram (SpectrogramConverter.mk 2 1 16000 128 [0; 1] 2) (T2 [[1; 2; 3]])
  = get_spectrogram (SpectrogramConverter.mk 2 1 16000 128 [0; 1] 2) (T1 [1; 2; 3]).
Proof.
  apply (get_spectrogram_mono (SpectrogramConverter.mk 2 1 16000 128 [0; 1] 2)
           [1; 2; 3] [] []).
  cbn. lia.
Defined.

(** *** Mel projection *)

Lemma has_shape_hd (rows cols : nat) (m : list (list R)) :
  has_shape rows cols m -> (1 <= rows)%nat -> length (hd [] m) = cols.
Proof.
  intros [Hl Hr] H1. destruct m as [|r m]; [cbn in Hl; lia|].
  inversion Hr; assumption.
Qed.

Lemma zip_with_nth_seq (f : R -> R -> R) (a b : list R) (n : nat) :
  length a = n -> length b = n ->
  zip_with f a b = map (fun i => f (nth i a 0) (nth i b 0)) (seq 0 n).
Proof.
  intros Ha Hb. apply (nth_ext _ _ 0 0).
  - rewrite zip_with_length by lia. rewrite length_map, length_seq. exact Ha.
  - intros i Hi. rewrite zip_with_length in Hi by lia.
    rewrite zip_with_nth by lia. rewrite nth_map_seq by lia. reflexivity.
Qed.

Lemma nth_map_in {A B : Type} (f : A -> B) (l : list A) (n : nat) (d : B) (d' : A) :
  (n < length l)%nat -> nth n (map f l) d = f (nth n l d').
Proof.
  revert n. induction l as [|x l IH]; intros n Hn; cbn in *; [lia|].
  destruct n as [|n]; [reflexivity|]. apply IH. lia.
Qed.

(** X22. For a filterbank of [bins x mels] entries, [convert_spec_to_mel_spec]
    raises a size mismatch when the spectrogram does not have [bins] rows;
    for a spectrogram of [bins x frames] it returns [mels x frames] entries,
    entry [(m, t)] being the sum over the bins [b] of
    [mel_fb[b][m] * spec[b][t]]. *)
Theorem convert_spec_to_mel_spec_shape
    (mel_fb spec : list (list R)) (bins mels frames : nat) :
  has_shape bins mels mel_fb -> (1 <= bins)%nat -> (1 <= mels)%nat ->
  (length spec <> bins ->
     convert_spec_to_mel_spec mel_fb spec = Err (RuntimeError SizeMismatch))
  /\ (has_shape bins frames spec ->
      exists mel,
        convert_spec_to_mel_spec mel_fb spec = Ok mel
        /\ has_shape mels frames mel
        /\ forall m t, (m < mels)%nat -> (t < frames)%nat ->
             get_item mel m t
             = sum_list (map (fun b => get_item mel_fb b m * get_item spec b t)
                             (seq 0 bins))).
Proof.
  intros Hfb Hb Hm.
  pose proof (has_shape_hd _ _ _ Hfb Hb) as Hhd. destruct Hfb as [Hfl Hfr].
  assert (Hcols : length (hd [] (transpose mel_fb)) = bins).
  { unfold transpose. rewrite Hhd. destruct mels as [|mels']; [lia|].
    cbn [seq map hd]. rewrite length_map. exact Hfl. }
  unfold convert_spec_to_mel_spec, torch_mm. rewrite Hcols. split.
  - intros Hne. destruct (Nat.eqb_spec bins (length spec)); [congruence|reflexivity].
  - intros Hs. pose proof (has_shape_hd _ _ _ Hs Hb) as Hshd. destruct Hs as [Hsl Hsr].
    rewrite Hsl, Nat.eqb_refl. eexists. split; [reflexivity|]. split; [split|].
    + unfold transpose. rewrite !length_map, length_seq. exact Hhd.
    + apply Forall_map, Forall_forall. intros r _. rewrite length_map, length_seq. exact Hshd.
    + intros m t Hmm Ht. unfold get_item, transpose. rewrite Hhd, Hshd.
      rewrite map_map. rewrite (nth_map_seq _ mels) by exact Hmm.
      rewrite (nth_map_seq _ frames) by exact Ht.
      rewrite (zip_with_nth_seq _ _ _ bins) by (rewrite length_map; assumption).
      f_equal. apply map_ext_in. intros b Hbin. apply in_seq in Hbin.
      rewrite !(nth_map_in _ _ _ 0 []) by lia. reflexivity.
Qed.

Lemma convert_spec_to_mel_spec_shape_witness :
  convert_spec_to_mel_spec [[1; 0]; [0; 1]] [[1; 2; 3]]
  = Err (RuntimeError SizeMismatch).
Proof.
  apply (convert_spec_to_mel_spec_shape [[1; 0]; [0; 1]] [[1; 2; 3]] 2 2 3).
  - split; [reflexivity|]. repeat constructor.
  - lia.
  - lia.
  - cbn. lia.
Defined.

Lemma convert_spec_to_mel_spec_ok
    (mel_fb spec : list (list R)) (bins mels frames : nat) :
  has_shape bins mels mel_fb -> (1 <= bins)%nat -> (1 <= mels)%nat ->
  has_shape bins frames spec ->
  exists mel, convert_spec_to_mel_spec mel_fb spec = Ok mel /\ has_shape mels frames mel.
Proof.
  intros Hfb Hb Hm Hs.
  pose proof (has_shape_hd _ _ _ Hfb Hb) as Hhd. destruct Hfb as [Hfl Hfr].
  pose proof (has_shape_hd _ _ _ Hs Hb) as Hshd. destruct Hs as [Hsl Hsr].
  assert (Hcols : length (hd [] (transpose mel_fb)) = bins).
  { unfold transpose. rewrite Hhd. destruct mels as [|mels']; [lia|].
    cbn [seq map hd]. rewrite length_map. exact Hfl. }
  unfold convert_spec_to_mel_spec, torch_mm. rewrite Hcols, Hsl, Nat.eqb_refl.
  eexists. split; [reflexivity|]. split.
  - unfold transpose. rewrite !length_map, length_seq. exact Hhd.
  - apply Forall_map, Forall_forall. intros r _. rewrite length_map, length_seq. exact Hshd.
Qed.

(** X23. The whole pipeline: for a converter with [n_fft > 0] and
    [hop_size > 0], a filterbank of [(n_fft / 2 + 1) x n_mels] entries and a
    1-D input of [N >= n_fft] samples, [__call__] returns [n_mels] rows of
    [(N - n_fft) / hop_size + 1] frames, every value at least -100 dB. *)
Theorem call_shape_and_floor
    (nfft hop : Z) (rate : R) (mels : Z) (p : R) (self : SpectrogramConverter.t)
    (mel_fb : list (list R)) (n_mels : nat) (audio : list R) :
  init nfft hop rate mels p = Ok self ->
  (0 < nfft)%Z -> (0 < hop)%Z -> (nfft <= Z.of_nat (length audio))%Z ->
  has_shape (Z.to_nat (nfft / 2 + 1)) n_mels mel_fb -> (1 <= n_mels)%nat ->
  exists mel_db,
    call self mel_fb (T1 audio) = Ok (T2 mel_db)
    /\ has_shape n_mels (Z.to_nat ((Z.of_nat (length audio) - nfft) / hop + 1)) mel_db
    /\ Forall (Forall (fun db => -100 <= db)) mel_db.
Proof.
  intros Hinit Hn Hh HN Hfb Hm.
  destruct (get_spectrogram_dims nfft hop rate mels p self audio Hinit Hn Hh HN)
    as (spec & Hspec & Hrows & Hcols).
  assert (Hbins : (1 <= Z.to_nat (nfft / 2 + 1))%nat).
  { pose proof (Z.div_pos nfft 2). lia. }
  destruct (convert_spec_to_mel_spec_ok mel_fb spec _ n_mels _ Hfb Hbins Hm (conj Hrows Hcols))
    as (mel & Hmel & Hshape).
  unfold call. rewrite Hspec. cbn [bind]. rewrite Hmel. cbn [bind amplitude_to_db tensor_map].
  eexists. split; [reflexivity|]. destruct Hshape as [Hl Hr]. split; [split|].
  - rewrite length_map. exact Hl.
  - apply Forall_map. eapply Forall_impl; [|exact Hr]. intros r Hr'. cbn beta.
    rewrite length_map. exact Hr'.
  - apply Forall_map, Forall_forall. intros r _. apply Forall_map, Forall_forall. intros v _.
    replace (-100) with (10 * -10) by lra. rewrite <- log10_default_eps.
    apply Rmult_le_compat_l; [lra|]. apply log10_le; [unfold default_eps; lra | apply Rmax_r].
Qed.

Lemma call_shape_and_floor_witness :
  exists self mel_db,
    init 2 1 16000 1 2 = Ok self
    /\ call self [[1]; [1]] (T1 [1; 2; 3]) = Ok (T2 mel_db)
    /\ Forall (Forall (fun db => -100 <= db)) mel_db.
Proof.
  destruct (init_ok 2 1 16000 1 2) as [self Hself]; [lia|].
  destruct (call_shape_and_floor 2 1 16000 1 2 self [[1]; [1]] 1 [1; 2; 3] Hself)
    as (mel_db & Hcall & _ & Hfloor).
  - lia.
  - lia.
  - cbn. lia.
  - split; [reflexivity|]. repeat constructor.
  - lia.
  - exists self, mel_db. auto.
Defined.

(** *** Axes *)

(** X18. For [n_fft > 0] and [sr >= 0], every bin [0 <= k <= n_fft / 2] of
    the spectrogram maps to a frequency between 0 and [sr / 2]; for an even
    [n_fft] the last bin is exactly [sr / 2]. *)
Theorem frequency_bin_to_hz_range (self : SpectrogramConverter.t) (k : Z) :
  (0 < n_fft self)%Z -> 0 <= SpectrogramConverter.sr self ->
  (0 <= k <= n_fft self / 2)%Z ->
  0 <= frequency_bin_to_hz self (IZR k) <= SpectrogramConverter.sr self / 2
  /\ ((n_fft self mod 2 = 0)%Z ->
      frequency_bin_to_hz self (IZR (n_fft self / 2)) = SpectrogramConverter.sr self / 2).
Proof.
  intros Hn Hsr Hk. unfold frequency_bin_to_hz.
  set (n := n_fft self) in *. set (s := SpectrogramConverter.sr self) in *.
  assert (Hn' : 0 < IZR n) by (apply IZR_lt; exact Hn).
  assert (Hk0 : 0 <= IZR k) by (apply IZR_le; lia).
  assert (H2k : 2 * IZR k <= IZR n).
  { rewrite <- mult_IZR. apply IZR_le.
    pose proof (Z.mul_div_le n 2 ltac:(lia)). lia. }
  assert (Hq : 0 <= IZR k / IZR n <= 1 / 2).
  { split; [apply Rmult_le_pos; [exact Hk0 | apply Rlt_le, Rinv_0_lt_compat; exact Hn']|].
    apply (Rmult_le_reg_r (IZR n)); [exact Hn'|].
    unfold Rdiv. rewrite Rmult_assoc, Rinv_l by lra. lra. }
  replace (IZR k * (s / IZR n)) with (s * (IZR k / IZR n)) by (field; lra).
  split; [split; nra|].
  intros Heven.
  assert (Hh : IZR n = 2 * IZR (n / 2)).
  { rewrite <- mult_IZR. f_equal. pose proof (Z.div_mod n 2 ltac:(lia)). lia. }
  rewrite Hh. field. lra.
Qed.

Lemma frequency_bin_to_hz_range_witness :
  0 <= frequency_bin_to_hz (SpectrogramConverter.mk 1024 512 16000 128 [] 2) (IZR 28)
    <= SpectrogramConverter.sr (SpectrogramConverter.mk 1024 512 16000 128 [] 2) / 2.
Proof.
  apply (frequency_bin_to_hz_range (SpectrogramConverter.mk 1024 512 16000 128 [] 2) 28);
    cbn; [lia | lra | lia].
Defined.

(** X19. For an input of [N >= n_fft] samples, [time_bin_to_second] of frame
    [c] is the time [c * hop_size / sr] of its first sample, is non-negative,
    and the frame ends within the [N / sr] seconds of the input. *)
Theorem time_bin_to_second_frame (self : SpectrogramConverter.t) (N c : Z) :
  0 < SpectrogramConverter.sr self -> (0 < hop_size self)%Z ->
  (n_fft self <= N)%Z -> (0 <= c <= (N - n_fft self) / hop_size self)%Z ->
  time_bin_to_second self (IZR c) = IZR (c * hop_size self) / SpectrogramConverter.sr self
  /\ 0 <= time_bin_to_second self (IZR c)
  /\ time_bin_to_second self (IZR c) + IZR (n_fft self) / SpectrogramConverter.sr self
     <= IZR N / SpectrogramConverter.sr self.
Proof.
  intros Hsr Hh HN Hc. unfold time_bin_to_second.
  set (h := hop_size self) in *. set (n := n_fft self) in *.
  set (s := SpectrogramConverter.sr self) in *.
  assert (Hs : 0 < / s) by (apply Rinv_0_lt_compat; exact Hsr).
  assert (Hend : (c * h + n <= N)%Z).
  { pose proof (Z.mul_div_le (N - n) h Hh).
    assert (c * h <= (N - n) / h * h)%Z by (apply Z.mul_le_mono_nonneg_r; lia). lia. }
  assert (H0 : (0 <= c * h)%Z) by (apply Z.mul_nonneg_nonneg; lia).
  apply IZR_le in Hend, H0. rewrite plus_IZR in Hend. rewrite mult_IZR in *.
  split; [reflexivity|]. unfold Rdiv. split.
  - apply Rmult_le_pos; lra.
  - rewrite <- Rmult_plus_distr_r. apply Rmult_le_compat_r; lra.
Qed.

Lemma time_bin_to_second_frame_witness :
  0 <= time_bin_to_second (SpectrogramConverter.mk 1024 512 16000 128 [] 2) (IZR 3).
Proof.
  apply (time_bin_to_second_frame (SpectrogramConverter.mk 1024 512 16000 128 [] 2) 48000 3);
    cbn; [lra | lia | lia | lia].
Defined.

(** *** Monotone scales *)

Lemma log10_lt (x y : R) : 0 < x -> x < y -> log10 x < log10 y.
Proof.
  intros Hx Hxy. unfold log10. apply Rmult_lt_compat_r.
  - apply Rinv_0_lt_compat, ln_10_pos.
  - apply ln_increasing; assumption.
Qed.

Lemma Forall2_map_mono {A B : Type} (P : A -> A -> Prop) (Q : B -> B -> Prop)
    (f : A -> B) (l1 l2 : list A) :
  (forall x y, P x y -> Q (f x) (f y)) ->
  Forall2 P l1 l2 -> Forall2 Q (map f l1) (map f l2).
Proof.
  intros Hf H. induction H as [|x y l1 l2 Hxy _ IH]; cbn [map]; constructor; auto.
Qed.

Lemma db_value_monotone (eps x y : R) :
  0 < eps -> x <= y -> 10 * log10 (Rmax x eps) <= 10 * log10 (Rmax y eps).
Proof.
  intros Heps Hxy. apply Rmult_le_compat_l; [lra|]. apply log10_le.
  - apply Rlt_le_trans with eps; [exact Heps | apply Rmax_r].
  - apply Rle_max_compat_r. exact Hxy.
Qed.

(** X20. [amplitude_to_db] is monotone on tensors of every rank: if one
    tensor is at most another element by element, so are their dB values. *)
Theorem amplitude_to_db_monotone (a b : tensor) (eps : R) :
  0 < eps -> tensor_le a b ->
  tensor_le (amplitude_to_db a eps) (amplitude_to_db b eps).
Proof.
  intros Heps H. pose proof (db_value_monotone eps) as Hm.
  destruct a as [x|l1|r1], b as [y|l2|r2]; cbn [tensor_le] in H; try contradiction;
    cbn [amplitude_to_db tensor_map tensor_le].
  - apply Hm; assumption.
  - apply (Forall2_map_mono Rle); [intros; apply Hm; assumption | exact H].
  - apply (Forall2_map_mono (Forall2 Rle)); [|exact H].
    intros u v Huv. apply (Forall2_map_mono Rle); [intros; apply Hm; assumption | exact Huv].
Qed.

Lemma amplitude_to_db_monotone_witness :
  tensor_le (amplitude_to_db (T2 [[0; 1]; [2; 3]]) 1)
            (amplitude_to_db (T2 [[1; 2]; [2; 4]]) 1).
Proof.
  apply (amplitude_to_db_monotone (T2 [[0; 1]; [2; 3]]) (T2 [[1; 2]; [2; 4]]) 1); [lra|].
  cbn [tensor_le]. repeat constructor; lra.
Defined.

(** X21. [hz_to_mel] is strictly increasing above -700 Hz and maps 0 Hz to
    0 mel. *)
Theorem hz_to_mel_increasing (h1 h2 : R) :
  -700 < h1 -> h1 < h2 ->
  exists m1 m2, hz_to_mel (T0 h1) = T0 m1 /\ hz_to_mel (T0 h2) = T0 m2 /\ m1 < m2
                /\ hz_to_mel (T0 0) = T0 0.
Proof.
  intros H1 H12. eexists. eexists. split; [reflexivity|]. split; [reflexivity|]. split.
  - apply Rmult_lt_compat_l; [lra|]. apply log10_lt; lra.
  - cbn [hz_to_mel tensor_map]. f_equal. unfold log10.
    replace (1 + 0 / 700) with 1 by lra. rewrite ln_1. lra.
Qed.

Lemma hz_to_mel_increasing_witness :
  exists m1 m2, hz_to_mel (T0 0) = T0 m1 /\ hz_to_mel (T0 8000) = T0 m2 /\ m1 < m2.
Proof.
  destruct (hz_to_mel_increasing 0 8000) as (m1 & m2 & H1 & H2 & Hlt & _); [lra | lra |].
  exists m1, m2. auto.
Defined.
